(** * Ball-and-hole: a shallow embedding of the grid world, the agents and
      the round driver (Playground.py, Agent.py, Controller.py). *)

From Stdlib Require Import ZArith QArith String Ascii List Bool Lia.
From stdpp Require Import base gmap sets list strings.

Local Open Scope string_scope.
Local Open Scope list_scope.
Local Open Scope Z_scope.

(** ** Python primitives used by the sources *)

(** Exceptions the modelled code can raise. *)
Inductive exn := IndexError | KeyError | ValueError | TypeError | AttributeError.

(** Outcome of a call: a value, a raised exception, or a loop that used up
    its iteration budget (only [find_random_position] has such a loop). *)
Inductive result (A : Type) : Type :=
  | Ok (a : A)
  | Raise (e : exn)
  | OutOfFuel.
Arguments Ok {A} a.
Arguments Raise {A} e.
Arguments OutOfFuel {A}.

#[global] Instance result_ret : MRet result := fun _ a => Ok a.
#[global] Instance result_bind : MBind result := fun _ _ f m =>
  match m with
  | Ok a => f a
  | Raise e => Raise e
  | OutOfFuel => OutOfFuel
  end.

Lemma bind_Ok {A B} (a : A) (f : A -> result B) : (Ok a ≫= f) = f a.
Proof. reflexivity. Qed.

(** [sub in s] on Python strings. *)
Fixpoint contains (sub s : string) : bool :=
  String.prefix sub s ||
  match s with
  | EmptyString => false
  | String _ s' => contains sub s'
  end.

(** [s.replace(old, new)] for a non-empty [old]: scan from the left, and
    after a match resume behind it ([skip] counts the characters of the
    match still to be passed over). *)
Fixpoint replace_from (old new : string) (skip : nat) (s : string) : string :=
  match s with
  | EmptyString => EmptyString
  | String c s' =>
      match skip with
      | S k => replace_from old new k s'
      | O =>
          if String.prefix old s
          then new +:+ replace_from old new (String.length old - 1) s'
          else String c (replace_from old new 0 s')
      end
  end.

(** [s.replace('', new)] puts [new] before every character and at the end. *)
Fixpoint intersperse (new s : string) : string :=
  match s with
  | EmptyString => EmptyString
  | String c s' => String c (new +:+ intersperse new s')
  end.

Definition replace (old new s : string) : string :=
  match old with
  | EmptyString => new +:+ intersperse new s
  | String _ _ => replace_from old new 0 s
  end.

(** [s[-1]]: the last character, IndexError on the empty string. *)
Fixpoint last_char (s : string) : result ascii :=
  match s with
  | EmptyString => Raise IndexError
  | String c s' =>
      match s' with
      | EmptyString => Ok c
      | String _ _ => last_char s'
      end
  end.

(** [s[:-1]]. *)
Fixpoint drop_last (s : string) : string :=
  match s with
  | EmptyString => EmptyString
  | String c s' =>
      match s' with
      | EmptyString => EmptyString
      | String _ _ => String c (drop_last s')
      end
  end.

(** Python list subscripts: an index in [-n, 0) counts from the end, an
    index outside [-n, n) raises IndexError. *)
Definition py_index (n : nat) (i : Z) : option nat :=
  if 0 <=? i then (if i <? Z.of_nat n then Some (Z.to_nat i) else None)
  else if - Z.of_nat n <=? i then Some (Z.to_nat (Z.of_nat n + i))
  else None.

Definition py_getitem {A} (l : list A) (i : Z) : result A :=
  match py_index (length l) i with
  | Some k => match l !! k with Some a => Ok a | None => Raise IndexError end
  | None => Raise IndexError
  end.

Definition py_setitem {A} (l : list A) (i : Z) (v : A) : result (list A) :=
  match py_index (length l) i with
  | Some k => Ok (<[k:=v]> l)
  | None => Raise IndexError
  end.

(** [g[r][c]] and [g[r][c] = v] on a list of rows. *)
Definition grid_read (g : list (list string)) (r c : Z) : result string :=
  row ← py_getitem g r; py_getitem row c.

Definition grid_write (g : list (list string)) (r c : Z) (v : string)
  : result (list (list string)) :=
  row ← py_getitem g r;
  row' ← py_setitem row c v;
  py_setitem g r row'.

(** [range(lo, hi)]. *)
Definition py_range (lo hi : Z) : list Z :=
  map (fun k => lo + Z.of_nat k) (seq 0 (Z.to_nat (hi - lo))).

(** [l.remove(x)]: drop the first element equal to [x], ValueError when
    there is none. *)
Fixpoint list_remove {A} `{EqDecision A} (x : A) (l : list A) : result (list A) :=
  match l with
  | [] => Raise ValueError
  | y :: l' =>
      if decide (y = x) then Ok l'
      else l'' ← list_remove x l'; Ok (y :: l'')
  end.

(** [min(l, key=key)]: the first element whose key is minimal, ValueError
    on the empty list. *)
Fixpoint min_from {A} (key : A -> Z) (best : A) (l : list A) : A :=
  match l with
  | [] => best
  | y :: l' => min_from key (if key y <? key best then y else best) l'
  end.

Definition py_min {A} (key : A -> Z) (l : list A) : result A :=
  match l with
  | [] => Raise ValueError
  | y :: l' => Ok (min_from key y l')
  end.

(** ** consts.py and utils.py *)

(** The four directions of consts.py, used as an enumeration. *)
Inductive Direction := UP | RIGHT | DOWN | LEFT.

#[global] Instance Direction_eq_dec : EqDecision Direction.
Proof. solve_decision. Defined.

Abbreviation Position := (Z * Z)%type.

(** consts.py is not part of the sources at hand: the cell tokens are taken
    as parameters. *)
Class Consts := {
  EMPTY : string;
  HOLE : string;
  ORB : string;
  FILLED_HOLE : string;
  AGENT : string
}.

(** The sentinel of [get_surrounding_cells], a literal of Playground.py. *)
Definition OUT : string := "out".

(** 0.1 as Python reads it: the double 3602879701896397 * 2^-55. *)
Definition float_0_1 : Q := 3602879701896397 # 36028797018963968.

(** The [random] module: the n-th call of the run returns the n-th draw.
    The iteration order of a Python set is unspecified; [set_iter] is the
    order in which the run enumerates a set. *)
Class Random := {
  rand_choice : nat -> Direction;
  rand_random : nat -> Q;
  rand_randint : nat -> Z -> Z -> Z;
  set_iter : gset Position -> list Position;
  set_iter_enumerates : forall s, set_iter s ≡ₚ elements s
}.

(** ** Data model *)

Record Agent := mkAgent {
  agent_id : string;
  position : Position;
  field_of_view : Z;
  visibility : list (list string);
  visited_cell : gset Position;
  direction : Direction;
  battery : Z;
  has_ball : bool;
  hole_positions : list Position;
  orb_positions : list Position;
  target_position : option Position;
  is_a_random_target : bool;
  filled_hole_positions : gset Position
}.

(** [orb_registry] is the playground's [orb_positions]; the agent's belief
    list keeps that name. *)
Record Playground := mkPlayground {
  xAxis : Z;
  yAxis : Z;
  grid : list (list string);
  agent_start_positions : gset Position;
  num_holes : Z;
  num_orbs : Z;
  orb_registry : gset Position;
  pg_field_of_view : Z
}.

Definition set_grid (g : list (list string)) (pg : Playground) : Playground :=
  mkPlayground (xAxis pg) (yAxis pg) g (agent_start_positions pg)
    (num_holes pg) (num_orbs pg) (orb_registry pg) (pg_field_of_view pg).

Definition set_agent_start_positions (s : gset Position) (pg : Playground)
  : Playground :=
  mkPlayground (xAxis pg) (yAxis pg) (grid pg) s
    (num_holes pg) (num_orbs pg) (orb_registry pg) (pg_field_of_view pg).

Definition set_orb_registry (s : gset Position) (pg : Playground) : Playground :=
  mkPlayground (xAxis pg) (yAxis pg) (grid pg) (agent_start_positions pg)
    (num_holes pg) (num_orbs pg) s (pg_field_of_view pg).

Definition set_position (p : Position) (a : Agent) : Agent :=
  mkAgent (agent_id a) p (field_of_view a) (visibility a) (visited_cell a)
    (direction a) (battery a) (has_ball a) (hole_positions a) (orb_positions a)
    (target_position a) (is_a_random_target a) (filled_hole_positions a).

Definition set_visibility (v : list (list string)) (a : Agent) : Agent :=
  mkAgent (agent_id a) (position a) (field_of_view a) v (visited_cell a)
    (direction a) (battery a) (has_ball a) (hole_positions a) (orb_positions a)
    (target_position a) (is_a_random_target a) (filled_hole_positions a).

Definition set_visited_cell (s : gset Position) (a : Agent) : Agent :=
  mkAgent (agent_id a) (position a) (field_of_view a) (visibility a) s
    (direction a) (battery a) (has_ball a) (hole_positions a) (orb_positions a)
    (target_position a) (is_a_random_target a) (filled_hole_positions a).

Definition set_direction (d : Direction) (a : Agent) : Agent :=
  mkAgent (agent_id a) (position a) (field_of_view a) (visibility a)
    (visited_cell a) d (battery a) (has_ball a) (hole_positions a)
    (orb_positions a) (target_position a) (is_a_random_target a)
    (filled_hole_positions a).

Definition set_battery (b : Z) (a : Agent) : Agent :=
  mkAgent (agent_id a) (position a) (field_of_view a) (visibility a)
    (visited_cell a) (direction a) b (has_ball a) (hole_positions a)
    (orb_positions a) (target_position a) (is_a_random_target a)
    (filled_hole_positions a).

Definition set_has_ball (b : bool) (a : Agent) : Agent :=
  mkAgent (agent_id a) (position a) (field_of_view a) (visibility a)
    (visited_cell a) (direction a) (battery a) b (hole_positions a)
    (orb_positions a) (target_position a) (is_a_random_target a)
    (filled_hole_positions a).

Definition set_hole_positions (l : list Position) (a : Agent) : Agent :=
  mkAgent (agent_id a) (position a) (field_of_view a) (visibility a)
    (visited_cell a) (direction a) (battery a) (has_ball a) l
    (orb_positions a) (target_position a) (is_a_random_target a)
    (filled_hole_positions a).

Definition set_orb_positions (l : list Position) (a : Agent) : Agent :=
  mkAgent (agent_id a) (position a) (field_of_view a) (visibility a)
    (visited_cell a) (direction a) (battery a) (has_ball a) (hole_positions a)
    l (target_position a) (is_a_random_target a) (filled_hole_positions a).

Definition set_target (t : option Position) (r : bool) (a : Agent) : Agent :=
  mkAgent (agent_id a) (position a) (field_of_view a) (visibility a)
    (visited_cell a) (direction a) (battery a) (has_ball a) (hole_positions a)
    (orb_positions a) t r (filled_hole_positions a).

Definition set_filled_hole_positions (s : gset Position) (a : Agent) : Agent :=
  mkAgent (agent_id a) (position a) (field_of_view a) (visibility a)
    (visited_cell a) (direction a) (battery a) (has_ball a) (hole_positions a)
    (orb_positions a) (target_position a) (is_a_random_target a) s.

(** ** Playground.py *)

Section Playground.
Context {consts : Consts} {rng : Random}.

(** [Agent.get_label]. *)
Definition get_label (agent : Agent) : string :=
  AGENT +:+ "-" +:+ agent_id agent.

(** [Playground.__init__]. *)
Definition new_playground (dimension : Z * Z) (holes orbs fov : Z) : Playground :=
  let '(w, h) := dimension in
  mkPlayground w h (replicate (Z.to_nat h) (replicate (Z.to_nat w) EMPTY))
    ∅ holes orbs ∅ fov.

(** [Playground.is_valid_position]; [None] is Python's None. *)
Definition is_valid_position (pg : Playground) (position : option Position) : bool :=
  match position with
  | None => false
  | Some (x, y) =>
      if (x <? 0) || (xAxis pg <=? x) then false
      else if (y <? 0) || (xAxis pg <=? y) then false
      else true
  end.

(** [Playground.get_cell_state]. *)
Definition get_cell_state (pg : Playground) (position : Position) : result string :=
  let '(x, y) := position in grid_read (grid pg) y x.

(** [Playground.add_agent]. *)
Definition add_agent (pg : Playground) (agent : Agent) : result (bool * Playground) :=
  if decide (position agent ∈ agent_start_positions pg) then Ok (false, pg)
  else
    let starts := agent_start_positions pg ∪ {[position agent]} in
    let '(x, y) := position agent in
    g ← grid_write (grid pg) x y (get_label agent);
    Ok (true, set_grid g (set_agent_start_positions starts pg)).

(** [Playground.get_surrounding_cells]; [None] selects the playground's own
    field of view. *)
Definition surrounding_cell (pg : Playground) (i j : Z) : result string :=
  if (i <? 0) || (j <? 0) || (Z.of_nat (length (grid pg)) <=? i) then Ok OUT
  else
    row0 ← py_getitem (grid pg) 0;
    if Z.of_nat (length row0) <=? j then Ok OUT
    else grid_read (grid pg) i j.

Fixpoint for_each {A B} (f : A -> result B) (l : list A) : result (list B) :=
  match l with
  | [] => Ok []
  | a :: l' => b ← f a; bs ← for_each f l'; Ok (b :: bs)
  end.

Definition get_surrounding_cells (pg : Playground) (position : Position)
    (fov : option Z) : result (list (list string)) :=
  let field_of_view := default (pg_field_of_view pg) fov in
  let '(x, y) := position in
  for_each (fun i =>
      for_each (fun j => surrounding_cell pg i j)
        (py_range (x - field_of_view / 2) (x + field_of_view / 2 + 1)))
    (py_range (y - field_of_view / 2) (y + field_of_view / 2 + 1)).

(** [Playground.agent_exit_cell]. *)
Definition agent_exit_cell (pg : Playground) (agent : Agent) : result Playground :=
  current_cell_state ← get_cell_state pg (position agent);
  let '(x, y) := position agent in
  g1 ← grid_write (grid pg) y x
         (replace ",," "," (replace (get_label agent) "" current_cell_state));
  c1 ← grid_read g1 y x;
  g2 ← (if String.eqb c1 "" then grid_write g1 y x EMPTY else Ok g1);
  c2 ← grid_read g2 y x;
  last ← last_char c2;
  g3 ← (if Ascii.eqb last "," then grid_write g2 y x (drop_last c2) else Ok g2);
  Ok (set_grid g3 pg).

(** [Playground.agent_enter_cell]. *)
Definition agent_enter_cell (pg : Playground) (position : Position)
    (agent : Agent) : result (bool * Playground) :=
  if negb (is_valid_position pg (Some position)) then Ok (false, pg)
  else
    current_cell_state ← get_cell_state pg position;
    let '(x, y) := position in
    pg1 ← agent_exit_cell pg agent;
    g ← grid_write (grid pg1) y x (current_cell_state +:+ "," +:+ get_label agent);
    Ok (true, set_grid g pg1).

(** [set.remove]: KeyError when the element is absent. *)
Definition set_remove (p : Position) (s : gset Position) : result (gset Position) :=
  if decide (p ∈ s) then Ok (s ∖ {[p]}) else Raise KeyError.

(** [Playground.pick_orb]. *)
Definition pick_orb (pg : Playground) (position : Position)
  : result (bool * Playground) :=
  if negb (is_valid_position pg (Some position)) then Ok (false, pg)
  else
    current_cell_state ← get_cell_state pg position;
    if negb (contains ORB current_cell_state) then Ok (false, pg)
    else
      let '(x_old, y_old) := position in
      g ← grid_write (grid pg) y_old x_old (replace ORB EMPTY current_cell_state);
      reg ← set_remove position (orb_registry pg);
      Ok (true, set_orb_registry reg (set_grid g pg)).

(** The destination the body of [switch_orb_positions] computes. *)
Definition orb_destination (direction : Direction) (orb : Position) : Position :=
  let '(x_old, y_old) := orb in
  match direction with
  | UP => (x_old, y_old - 1)
  | RIGHT => (x_old + 1, y_old)
  | DOWN => (x_old, y_old + 1)
  | LEFT => (x_old - 1, y_old)
  end.

(** One iteration of the loop of [switch_orb_positions]: [t] counts the
    calls made to [random] so far. *)
Definition switch_orb_step (st : Playground * nat) (orb : Position)
  : result (Playground * nat) :=
  let '(pg, t) := st in
  let direction := rand_choice t in
  let prob := rand_random (S t) in
  let t' := S (S t) in
  if negb (Qle_bool prob float_0_1) then Ok (pg, t')
  else
    let new_position := orb_destination direction orb in
    if negb (is_valid_position pg (Some new_position)) then Ok (pg, t')
    else
      let '(x_old, y_old) := orb in
      let '(x_new, y_new) := new_position in
      new_cell_label ← get_cell_state pg new_position;
      if contains ORB new_cell_label || contains FILLED_HOLE new_cell_label
      then Ok (pg, t')
      else if contains EMPTY new_cell_label then
        c_old ← grid_read (grid pg) y_old x_old;
        g1 ← grid_write (grid pg) y_old x_old (replace ORB EMPTY c_old);
        c_new ← grid_read g1 y_new x_new;
        g2 ← grid_write g1 y_new x_new (replace EMPTY ORB c_new);
        reg ← set_remove orb (orb_registry pg);
        Ok (set_orb_registry (reg ∪ {[new_position]}) (set_grid g2 pg), t')
      else if contains HOLE new_cell_label then
        c_old ← grid_read (grid pg) y_old x_old;
        g1 ← grid_write (grid pg) y_old x_old (replace ORB EMPTY c_old);
        c_new ← grid_read g1 y_new x_new;
        g2 ← grid_write g1 y_new x_new (replace HOLE FILLED_HOLE c_new);
        reg ← set_remove orb (orb_registry pg);
        Ok (set_orb_registry reg (set_grid g2 pg), t')
      else Ok (pg, t').

Fixpoint for_loop {S A} (body : S -> A -> result S) (st : S) (l : list A)
  : result S :=
  match l with
  | [] => Ok st
  | a :: l' => st' ← body st a; for_loop body st' l'
  end.

(** [Playground.switch_orb_positions]: the loop runs over a copy of the
    registry made before the first iteration. *)
Definition switch_orb_positions (pg : Playground) (t : nat)
  : result (Playground * nat) :=
  let orb_position_temp := set_iter (orb_registry pg) in
  for_loop switch_orb_step (pg, t) orb_position_temp.

(** [Playground.place_orb]. *)
Definition place_orb (pg : Playground) (position : Position) (agent : Agent)
    (t : nat) : result (bool * Playground * nat) :=
  if negb (is_valid_position pg (Some position)) then Ok (false, pg, t)
  else if negb (has_ball agent) then Ok (false, pg, t)
  else
    current_cell_state ← get_cell_state pg position;
    if negb (contains HOLE current_cell_state) then Ok (false, pg, t)
    else
      let '(x, y) := position in
      g ← grid_write (grid pg) y x (replace HOLE FILLED_HOLE current_cell_state);
      '(pg', t') ← switch_orb_positions (set_grid g pg) t;
      Ok (true, pg', t').

End Playground.

(** ** Agent.py *)

(** utils.py is not part of the sources at hand: [get_new_position] is taken
    as a parameter. *)
Class Helpers := {
  get_new_position : Direction -> Position -> Position
}.

(** [environment.is_a_hole_cell] and [environment.is_a_orb_cell]:
    [class Playground] (Playground.py:15-319) defines neither method and no
    [__getattr__], so looking the attribute up raises AttributeError before
    anything is called. *)
Definition is_a_hole_cell (environment : Playground) (position : Position)
  : result bool :=
  Raise AttributeError.

Definition is_a_orb_cell (environment : Playground) (position : Position)
  : result bool :=
  Raise AttributeError.

Section Agent.
Context {consts : Consts} {rng : Random} {helpers : Helpers}.

(** [Agent.__init__]; [None] for [visibility] builds the default view. *)
Definition new_agent (id : string) (pos : Position) (fov : Z)
    (vis : option (list (list string))) (bat : Z) : result Agent :=
  let visibility0 :=
    default (replicate (Z.to_nat fov) (replicate (Z.to_nat fov) EMPTY)) vis in
  visibility1 ← grid_write visibility0 (fov / 2) (fov / 2) (AGENT +:+ "-" +:+ id);
  Ok (mkAgent id pos fov visibility1 {[pos]} UP bat false [] [] None false ∅).

Definition directions : list Direction := [UP; RIGHT; DOWN; LEFT].

Definition direction_index (d : Direction) : nat :=
  match d with UP => 0 | RIGHT => 1 | DOWN => 2 | LEFT => 3 end%nat.

(** [Agent.turn_clockwise]. *)
Definition turn_clockwise (a : Agent) : Agent :=
  let current_index := direction_index (direction a) in
  let new_index := ((current_index + 1) mod length directions)%nat in
  set_direction (nth new_index directions UP) a.

(** [while self.direction != d: self.turn_clockwise()]. *)
Fixpoint turn_until (n : nat) (d : Direction) (a : Agent) : Agent :=
  if decide (direction a = d) then a
  else match n with
       | O => a
       | S n' => turn_until n' d (turn_clockwise a)
       end.

(** [Agent.take_step_forward]. *)
Definition take_step_forward (a : Agent) (environment : Playground)
  : result (bool * Agent * Playground) :=
  let a1 := set_battery (battery a - 1) a in
  let new_position := get_new_position (direction a1) (position a1) in
  '(entered, env') ← agent_enter_cell environment new_position a1;
  if entered : bool then
    Ok (true,
        set_visited_cell (visited_cell a1 ∪ {[new_position]})
          (set_position new_position a1),
        env')
  else Ok (true, a1, env').

(** [Agent.take_ball]. *)
Definition take_ball (a : Agent) (environment : Playground)
  : result (bool * Agent * Playground) :=
  if has_ball a then Ok (false, a, environment)
  else
    '(picked, env') ← pick_orb environment (position a);
    if picked : bool then
      l ← list_remove (position a) (orb_positions a);
      Ok (true, set_orb_positions l (set_has_ball true a), env')
    else Ok (false, a, env').

(** [Agent.put_ball_in_hole]. *)
Definition put_ball_in_hole (a : Agent) (environment : Playground) (t : nat)
  : result (bool * Agent * Playground * nat) :=
  if negb (has_ball a) then Ok (false, a, environment, t)
  else
    '(placed, env', t') ← place_orb environment (position a) a t;
    if placed : bool then
      l ← list_remove (position a) (hole_positions a);
      Ok (true, set_hole_positions l (set_has_ball false a), env', t')
    else Ok (false, a, env', t').

(** [Agent.see]: the view is assigned; the method has no return statement,
    so the call evaluates to None. *)
Definition see (a : Agent) (v : list (list string)) : Agent :=
  set_visibility v a.

(** The body of the inner loop of [update_item_positions]. *)
Definition update_item (a : Agent) (env : Position) (cell : string) : Agent :=
  let a1 :=
    if contains ORB cell && negb (bool_decide (env ∈ orb_positions a))
    then set_orb_positions (orb_positions a ++ [env]) a else a in
  let a2 :=
    if contains HOLE cell && negb (bool_decide (env ∈ hole_positions a1))
    then set_hole_positions (hole_positions a1 ++ [env]) a1 else a1 in
  if contains FILLED_HOLE cell
  then set_filled_hole_positions (filled_hole_positions a2 ∪ {[env]}) a2
  else a2.

Fixpoint scan_row (a : Agent) (top_left_x env_y : Z) (j : nat)
    (row : list string) : Agent :=
  match row with
  | [] => a
  | cell :: row' =>
      scan_row (update_item a (top_left_x + Z.of_nat j, env_y) cell)
        top_left_x env_y (S j) row'
  end.

Fixpoint scan_rows (a : Agent) (top_left_x top_left_y : Z) (i : nat)
    (rows : list (list string)) : Agent :=
  match rows with
  | [] => a
  | row :: rows' =>
      scan_rows (scan_row a top_left_x (top_left_y + Z.of_nat i) 0 row)
        top_left_x top_left_y (S i) rows'
  end.

(** [Agent.update_item_positions]. *)
Definition update_item_positions (a : Agent) : Agent :=
  let top_left_x := (position a).1 - field_of_view a / 2 in
  let top_left_y := (position a).2 - field_of_view a / 2 in
  scan_rows a top_left_x top_left_y 0 (visibility a).

(** [Agent.manhattan_distance]. *)
Definition manhattan_distance (pos1 pos2 : Position) : Z :=
  Z.abs (pos1.1 - pos2.1) + Z.abs (pos1.2 - pos2.2).

(** [Agent.find_nearest_target]: the list is changed in place, so the new
    list is returned with the target. *)
Definition find_nearest_target (a : Agent) (target_list : list Position)
  : result (Position * list Position) :=
  nearest_target ← py_min (manhattan_distance (position a)) target_list;
  target_list' ← list_remove nearest_target target_list;
  Ok (nearest_target, target_list').

(** [Agent.find_random_position]: [fuel] bounds the iterations of the
    [while True] loop. [random.randint(a, b)] raises ValueError when the
    range is empty. *)
Definition randint (t : nat) (lo hi : Z) : result Z :=
  if hi <? lo then Raise ValueError else Ok (rand_randint t lo hi).

Fixpoint find_random_position (fuel : nat) (a : Agent)
    (environment : Playground) (t : nat) : result (Position * nat) :=
  match fuel with
  | O => OutOfFuel
  | S fuel' =>
      rx ← randint t 0 (xAxis environment - 1);
      ry ← randint (S t) 0 (yAxis environment - 1);
      if decide ((rx, ry) ∈ visited_cell a)
      then find_random_position fuel' a environment (S (S t))
      else Ok ((rx, ry), S (S t))
  end.

(** [Agent.update_target]. [target_list] aliases the belief list it was
    taken from, which therefore receives the shortened list. *)
Definition update_target (fuel : nat) (a : Agent) (environment : Playground)
    (t : nat) : result (Agent * nat) :=
  if bool_decide (target_position a ≠ None) && negb (is_a_random_target a)
  then Ok (a, t)
  else
    let target_list := if has_ball a then hole_positions a else orb_positions a in
    if (0 <? length target_list)%nat then
      '(target, target_list') ← find_nearest_target a target_list;
      let a1 := if has_ball a then set_hole_positions target_list' a
                else set_orb_positions target_list' a in
      Ok (set_target (Some target) false a1, t)
    else if negb (is_a_random_target a) then
      '(target, t') ← find_random_position fuel a environment t;
      Ok (set_target (Some target) true a, t')
    else Ok (a, t).

(** [Agent.interact_with_environment]. Python's [and] evaluates its second
    operand only when the first is true. *)
Definition interact_with_environment (a : Agent) (environment : Playground)
    (t : nat) : result (bool * Agent * Playground * nat) :=
  on_hole ← (if has_ball a then is_a_hole_cell environment (position a)
             else Ok false);
  if on_hole : bool then
    '(_, a', env', t') ← put_ball_in_hole a environment t;
    Ok (true, a', env', t')
  else
    on_orb ← (if negb (has_ball a) then is_a_orb_cell environment (position a)
              else Ok false);
    if on_orb : bool then
      '(_, a', env') ← take_ball a environment;
      Ok (true, a', env', t)
    else
      let a1 := if bool_decide (target_position a = Some (position a))
                then set_target None false a else a in
      Ok (false, a1, environment, t).

(** The orientation step of [Agent.action]. *)
Definition face_target (a : Agent) (target : Position) : Agent :=
  let '(target_x, target_y) := target in
  if (position a).1 <? target_x then turn_until 4 RIGHT a
  else if target_x <? (position a).1 then turn_until 4 LEFT a
  else if (position a).2 <? target_y then turn_until 4 DOWN a
  else if target_y <? (position a).2 then turn_until 4 UP a
  else a.

(** [Agent.action]. *)
Definition action (fuel : nat) (a : Agent) (environment : Playground) (t : nat)
  : result (Agent * Playground * nat) :=
  let a0 := update_item_positions a in
  '(interacted, a1, env1, t1) ← interact_with_environment a0 environment t;
  if interacted : bool then
    cell ← get_cell_state env1 (position a1);
    v ← grid_write (visibility a1) (field_of_view a1 / 2) (field_of_view a1 / 2) cell;
    Ok (update_item_positions (set_visibility v a1), env1, t1)
  else
    '(a2, t2) ← update_target fuel a1 env1 t1;
    match target_position a2 with
    | None => Raise TypeError
    | Some target =>
        '(_, a3, env3) ← take_step_forward (face_target a2 target) env1;
        Ok (a3, env3, t2)
    end.

End Agent.

(** ** Controller.py *)

Record Controller := mkController {
  playground : Playground;
  agents : list Agent
}.

Section Controller.
Context {consts : Consts}.

(** The body of the loop of [Controller.next_round] for one agent. An agent
    with a negative battery is passed over. For any other agent the view is
    fetched and handed to [see]; [see] returns None (Agent.py:122-129), so
    the chained [.action(self.playground)] is an attribute lookup on None and
    raises AttributeError before [action] is called. *)
Definition agent_turn (pg : Playground) (agent : Agent)
  : result (Agent * Playground) :=
  if battery agent <? 0 then Ok (agent, pg)
  else
    surrounding_cells ←
      get_surrounding_cells pg (position agent) (Some (field_of_view agent));
    let seen := see agent surrounding_cells in
    Raise AttributeError.

Fixpoint round_loop (pg : Playground) (l : list Agent)
  : result (list Agent * Playground) :=
  match l with
  | [] => Ok ([], pg)
  | agent :: l' =>
      '(agent', pg') ← agent_turn pg agent;
      '(l'', pg'') ← round_loop pg' l';
      Ok (agent' :: l'', pg'')
  end.

(** [Controller.next_round]. After the loop the report line evaluates
    [self.agents[0].get_all_agents_score()]: IndexError on an empty roster,
    and AttributeError otherwise, [class Agent] (Agent.py:13-309) defining no
    such method. The frame is recorded only after that line. *)
Definition next_round (c : Controller) : result Controller :=
  '(l, pg) ← round_loop (playground c) (agents c);
  first ← py_getitem l 0;
  Raise AttributeError.

End Controller.

(** ** Sample parameters, to run the model on concrete inputs *)

Definition sample_consts : Consts :=
  {| EMPTY := "empty"; HOLE := "hole"; ORB := "orb";
     FILLED_HOLE := "filled"; AGENT := "agent" |}.

(** A run in which every [random.random()] returns 0.5 (no orb moves),
    every [random.choice] returns UP, [randint] returns its upper bound,
    and sets are enumerated in the order of [elements]. *)
Definition sample_random : Random :=
  {| rand_choice := fun _ => UP;
     rand_random := fun _ => (1 # 2)%Q;
     rand_randint := fun _ _ hi => hi;
     set_iter := elements;
     set_iter_enumerates := fun s => Permutation_refl (elements s) |}.


(** Modelled from the spec: [utils.get_new_position] is missing from the
    sources. The step follows the four directions as [switch_orb_positions]
    does. *)
Definition sample_helpers : Helpers :=
  {| get_new_position := orb_destination |}.

(** ** Facts about the Python primitives *)

Lemma py_index_Some n i k :
  py_index n i = Some k ->
  (k < n)%nat /\ ((0 <= i /\ k = Z.to_nat i) \/ (i < 0 /\ k = Z.to_nat (Z.of_nat n + i))).
Proof.
  unfold py_index. intros Hk.
  destruct (Z.leb_spec 0 i).
  - destruct (Z.ltb_spec i (Z.of_nat n)); inversion Hk; subst. split; [lia | left; lia].
  - destruct (Z.leb_spec (- Z.of_nat n) i); inversion Hk; subst. split; [lia | right; lia].
Qed.

Lemma py_index_range n i k :
  py_index n i = Some k -> - Z.of_nat n <= i < Z.of_nat n.
Proof.
  unfold py_index. intros Hk.
  destruct (Z.leb_spec 0 i).
  - destruct (Z.ltb_spec i (Z.of_nat n)); [lia | discriminate].
  - destruct (Z.leb_spec (- Z.of_nat n) i); [lia | discriminate].
Qed.

Lemma py_index_nonneg n i :
  0 <= i -> i < Z.of_nat n -> py_index n i = Some (Z.to_nat i).
Proof.
  intros H0 H1. unfold py_index.
  destruct (Z.leb_spec 0 i); [| lia].
  destruct (Z.ltb_spec i (Z.of_nat n)); [reflexivity | lia].
Qed.

Lemma py_index_wrap n i :
  - Z.of_nat n <= i -> i < 0 -> py_index n i = py_index n (i + Z.of_nat n).
Proof.
  intros H0 H1. rewrite (py_index_nonneg n (i + Z.of_nat n)) by lia.
  unfold py_index.
  destruct (Z.leb_spec 0 i); [lia |].
  destruct (Z.leb_spec (- Z.of_nat n) i); [| lia].
  f_equal. lia.
Qed.

Lemma py_index_out n i :
  Z.of_nat n <= i \/ i < - Z.of_nat n -> py_index n i = None.
Proof.
  intros Hi. unfold py_index.
  destruct (Z.leb_spec 0 i).
  - destruct (Z.ltb_spec i (Z.of_nat n)); [lia | reflexivity].
  - destruct (Z.leb_spec (- Z.of_nat n) i); [lia | reflexivity].
Qed.

Lemma py_getitem_Ok {A} (l : list A) i a :
  py_getitem l i = Ok a <->
  exists k, py_index (length l) i = Some k /\ l !! k = Some a.
Proof.
  unfold py_getitem. split.
  - destruct (py_index (length l) i) as [k|] eqn:Hk; [| discriminate].
    destruct (l !! k) as [b|] eqn:Hb; [| discriminate].
    intros [= ->]. eauto.
  - intros (k & -> & ->). reflexivity.
Qed.

Lemma py_getitem_out {A} (l : list A) i :
  Z.of_nat (length l) <= i \/ i < - Z.of_nat (length l) ->
  py_getitem l i = Raise IndexError.
Proof. intros Hi. unfold py_getitem. rewrite py_index_out; done. Qed.

(** A read of [g[r][c]] succeeds exactly when both subscripts resolve. *)
Lemma grid_read_Ok g r c v :
  grid_read g r c = Ok v <->
  exists i j row, py_index (length g) r = Some i /\ g !! i = Some row /\
                  py_index (length row) c = Some j /\ row !! j = Some v.
Proof.
  unfold grid_read. split.
  - destruct (py_getitem g r) as [row| |] eqn:Hrow; try discriminate.
    simpl. intros Hv.
    apply py_getitem_Ok in Hrow as (i & Hi & Hr).
    apply py_getitem_Ok in Hv as (j & Hj & Hv).
    exists i, j, row. auto.
  - intros (i & j & row & Hi & Hr & Hj & Hv).
    assert (Hrow : py_getitem g r = Ok row) by (apply py_getitem_Ok; eauto).
    rewrite Hrow. simpl. apply py_getitem_Ok. eauto.
Qed.

Lemma grid_write_Ok g r c v g' :
  grid_write g r c v = Ok g' <->
  exists i j row, py_index (length g) r = Some i /\ g !! i = Some row /\
                  py_index (length row) c = Some j /\
                  g' = <[i := <[j := v]> row]> g.
Proof.
  unfold grid_write. split.
  - destruct (py_getitem g r) as [row| |] eqn:Hrow; try discriminate.
    simpl. apply py_getitem_Ok in Hrow as (i & Hi & Hr).
    unfold py_setitem. rewrite Hi.
    destruct (py_index (length row) c) as [j|] eqn:Hj; [| discriminate].
    simpl. intros [= <-]. exists i, j, row. auto.
  - intros (i & j & row & Hi & Hr & Hj & ->).
    assert (Hrow : py_getitem g r = Ok row) by (apply py_getitem_Ok; eauto).
    rewrite Hrow. simpl. unfold py_setitem. rewrite Hj, Hi. reflexivity.
Qed.

(** Writing where a read succeeds: the write succeeds, the cell reads back
    the new value, and a cell at other non-negative subscripts is as before. *)
Lemma grid_write_after_read g r c v0 v :
  grid_read g r c = Ok v0 ->
  exists g', grid_write g r c v = Ok g' /\
             grid_read g' r c = Ok v /\
             length g' = length g /\
             (forall r' c', 0 <= r -> 0 <= c -> 0 <= r' -> 0 <= c' ->
                            (r', c') <> (r, c) ->
                            grid_read g' r' c' = grid_read g r' c').
Proof.
  intros Hread. apply grid_read_Ok in Hread as (i & j & row & Hi & Hr & Hj & Hv).
  exists (<[i := <[j := v]> row]> g).
  assert (Hil : (i < length g)%nat) by (eapply lookup_lt_Some; eauto).
  assert (Hjl : (j < length row)%nat) by (eapply lookup_lt_Some; eauto).
  split; [apply grid_write_Ok; exists i, j, row; auto |].
  split.
  { apply grid_read_Ok. exists i, j, (<[j := v]> row).
    rewrite !length_insert. repeat split; auto.
    - apply list_lookup_insert_eq; auto.
    - apply list_lookup_insert_eq; auto. }
  split; [apply length_insert |].
  intros r' c' Hr0 Hc0 Hr0' Hc0' Hne.
  apply py_index_Some in Hi as (_ & [(_ & Hi) | (? & _)]); [| lia].
  apply py_index_Some in Hj as (_ & [(_ & Hj) | (? & _)]); [| lia].
  unfold grid_read, py_getitem. rewrite length_insert.
  destruct (py_index (length g) r') as [i'|] eqn:Hi'; [| reflexivity].
  apply py_index_Some in Hi' as (_ & [(_ & Hi') | (? & _)]); [| lia].
  destruct (decide (i' = i)) as [-> | Hii].
  - rewrite list_lookup_insert_eq by auto. rewrite Hr. simpl.
    rewrite length_insert.
    destruct (py_index (length row) c') as [j'|] eqn:Hj'; [| reflexivity].
    apply py_index_Some in Hj' as (_ & [(_ & Hj') | (? & _)]); [| lia].
    assert (j' <> j).
    { intros ->. apply Hne. f_equal; lia. }
    rewrite list_lookup_insert_ne by auto. reflexivity.
  - rewrite list_lookup_insert_ne by auto. reflexivity.
Qed.

(** A write changes no length: neither the number of rows nor that of any
    row. *)
Lemma grid_write_shape g r c v g' :
  grid_write g r c v = Ok g' -> length <$> g' = length <$> g.
Proof.
  intros Hw. apply grid_write_Ok in Hw as (i & j & row & _ & Hrow & _ & ->).
  rewrite list_fmap_insert, length_insert.
  apply list_insert_id. rewrite list_lookup_fmap, Hrow. reflexivity.
Qed.

(** ** The grid and its bounds *)

(** The shape [Playground.__init__] gives the grid: [yAxis] rows of [xAxis]
    cells each. *)
Definition rectangular (pg : Playground) : Prop :=
  length (grid pg) = Z.to_nat (yAxis pg) /\
  Forall (fun row => length row = Z.to_nat (xAxis pg)) (grid pg).

Lemma new_playground_rectangular {consts : Consts} w h holes orbs fov :
  rectangular (new_playground (w, h) holes orbs fov).
Proof.
  split; simpl.
  - apply length_replicate.
  - apply Forall_forall. intros row Hrow.
    apply elem_of_replicate in Hrow as [-> _]. apply length_replicate.
Qed.

Lemma rectangular_row pg i row :
  rectangular pg -> grid pg !! i = Some row -> length row = Z.to_nat (xAxis pg).
Proof.
  intros [_ Hrows] Hrow. rewrite Forall_forall in Hrows.
  apply Hrows. eapply list_elem_of_lookup_2; eauto.
Qed.


Lemma is_valid_position_iff pg x y :
  is_valid_position pg (Some (x, y)) = true <->
  0 <= x < xAxis pg /\ 0 <= y < xAxis pg.
Proof.
  unfold is_valid_position.
  destruct (Z.ltb_spec x 0), (Z.leb_spec (xAxis pg) x),
    (Z.ltb_spec y 0), (Z.leb_spec (xAxis pg) y); simpl; split;
    intros; try discriminate; try lia; auto.
Qed.

(** C1 (the code departs from the claim). On a grid 3 wide and 2 high the
    position (0, 2) lies below the last row, and [is_valid_position] accepts
    it: the y-coordinate is compared with the width. *)
Theorem is_valid_position_accepts_row_beyond_height :
  let pg := new_playground (consts := sample_consts) (3, 2) 0 0 3 in
  xAxis pg = 3 /\ yAxis pg = 2 /\ length (grid pg) = 2%nat /\
  is_valid_position pg (Some (0, 2)) = true /\
  get_cell_state pg (0, 2) = Raise IndexError.
Proof. repeat split; reflexivity. Qed.

(** On a grid 2 wide and 3 high the in-bounds position (0, 2) is refused. *)
Lemma is_valid_position_refuses_row_within_height :
  let pg := new_playground (consts := sample_consts) (2, 3) 0 0 3 in
  is_valid_position pg (Some (0, 2)) = false /\
  get_cell_state pg (0, 2) = Ok "empty".
Proof. split; reflexivity. Qed.

(** C2, counterexample. On a 2 x 2 grid the position (-1, -1) is out of
    bounds, and [get_cell_state] returns the cell at (1, 1). *)
Lemma get_cell_state_wraps_negative :
  let pg := mkPlayground 2 2 [["empty"; "empty"]; ["empty"; "hole"]] ∅ 1 0 ∅ 3 in
  ~ (0 <= -1 < xAxis pg) /\
  get_cell_state pg (-1, -1) = Ok "hole" /\
  get_cell_state pg (1, 1) = Ok "hole".
Proof. repeat split; try reflexivity. simpl. lia. Qed.

(** An in-bounds position of a rectangular grid reads its cell. *)
Lemma get_cell_state_in_bounds pg x y :
  rectangular pg -> 0 <= x < xAxis pg -> 0 <= y < yAxis pg ->
  exists row c, grid pg !! Z.to_nat y = Some row /\ row !! Z.to_nat x = Some c /\
                get_cell_state pg (x, y) = Ok c.
Proof.
  intros Hrect Hx Hy. pose proof Hrect as [Hlen Hrows].
  destruct (lookup_lt_is_Some_2 (grid pg) (Z.to_nat y)) as [row Hrow]; [lia |].
  pose proof (rectangular_row _ _ _ Hrect Hrow) as Hw.
  destruct (lookup_lt_is_Some_2 row (Z.to_nat x)) as [c Hc]; [lia |].
  exists row, c. repeat split; auto.
  apply grid_read_Ok. exists (Z.to_nat y), (Z.to_nat x), row.
  repeat split; auto; apply py_index_nonneg; lia.
Qed.

(** C2, amended. [get_cell_state] has no check of its own and subscripts the
    grid as Python does: an in-bounds position reads its cell; a coordinate
    at or beyond the width (height), or below minus the width (height),
    raises IndexError; a negative coordinate down to minus the width
    (height) reads the cell counted from the far edge. *)
Theorem get_cell_state_python_subscript pg x y (Hrect : rectangular pg) :
  (0 <= x < xAxis pg -> 0 <= y < yAxis pg ->
   exists row c, grid pg !! Z.to_nat y = Some row /\ row !! Z.to_nat x = Some c /\
                 get_cell_state pg (x, y) = Ok c) /\
  (xAxis pg <= x \/ x < - xAxis pg \/ yAxis pg <= y \/ y < - yAxis pg ->
   get_cell_state pg (x, y) = Raise IndexError) /\
  (- xAxis pg <= x < xAxis pg -> - yAxis pg <= y < yAxis pg ->
   get_cell_state pg (x, y) =
   get_cell_state pg (if x <? 0 then x + xAxis pg else x,
                      if y <? 0 then y + yAxis pg else y)).
Proof.
  pose proof Hrect as [Hlen Hrows].
  split; [| split].
  - intros Hx Hy. apply get_cell_state_in_bounds; auto.
  - intros Hout. simpl. unfold grid_read.
    destruct (py_getitem (grid pg) y) as [row| |] eqn:Hrow; simpl.
    + apply py_getitem_Ok in Hrow as (i & Hi & Hrow).
      pose proof (rectangular_row _ _ _ Hrect Hrow) as Hw.
      apply py_index_range in Hi.
      apply py_getitem_out. lia.
    + unfold py_getitem in Hrow.
      destruct (py_index (length (grid pg)) y) as [i|];
        [destruct (grid pg !! i) |]; congruence.
    + unfold py_getitem in Hrow.
      destruct (py_index (length (grid pg)) y) as [i|];
        [destruct (grid pg !! i) |]; congruence.
  - intros Hx Hy. simpl. unfold grid_read, py_getitem.
    assert (Hyi : py_index (length (grid pg)) y =
                  py_index (length (grid pg)) (if y <? 0 then y + yAxis pg else y)).
    { destruct (Z.ltb_spec y 0); [| reflexivity].
      rewrite py_index_wrap by lia. f_equal. lia. }
    rewrite <- Hyi.
    destruct (py_index (length (grid pg)) y) as [i|]; [| reflexivity].
    destruct (grid pg !! i) as [row|] eqn:Hrow; [| reflexivity]. simpl.
    pose proof (rectangular_row _ _ _ Hrect Hrow) as Hw.
    assert (Hxi : py_index (length row) x =
                  py_index (length row) (if x <? 0 then x + xAxis pg else x)).
    { destruct (Z.ltb_spec x 0); [| reflexivity].
      rewrite py_index_wrap by lia. f_equal. lia. }
    rewrite <- Hxi. reflexivity.
Qed.

Lemma get_cell_state_python_subscript_witness :
  rectangular (new_playground (consts := sample_consts) (2, 2) 0 0 3) /\
  get_cell_state (new_playground (consts := sample_consts) (2, 2) 0 0 3) (0, 2)
  = Raise IndexError.
Proof.
  split; [apply new_playground_rectangular |].
  apply (proj1 (proj2 (get_cell_state_python_subscript
           (new_playground (consts := sample_consts) (2, 2) 0 0 3) 0 2
           (new_playground_rectangular 2 2 0 0 3)))).
  right; right; left. simpl. lia.
Defined.

(** ** add_agent *)

Lemma add_agent_collision {consts : Consts} pg agent :
  position agent ∈ agent_start_positions pg ->
  add_agent pg agent = Ok (false, pg).
Proof. intros Hin. unfold add_agent. rewrite decide_True; auto. Qed.

(** C4 (the code departs from the claim). [add_agent] subscripts the grid
    with [x] as the row and [y] as the column, while every reader uses
    [grid[y][x]]: an agent starting at (1, 0) on a 2 x 2 grid is written to
    the cell (0, 1) and its own cell stays as it was; on a grid 3 wide and
    2 high a start at (2, 0) raises IndexError. *)
Theorem add_agent_writes_transposed_cell :
  let agent := mkAgent "a1" (1, 0) 3 [] {[(1, 0)]} UP 30 false [] [] None false ∅ in
  let pg := new_playground (consts := sample_consts) (2, 2) 0 0 3 in
  (exists pg', add_agent (consts := sample_consts) pg agent = Ok (true, pg') /\
               get_cell_state pg' (1, 0) = Ok "empty" /\
               get_cell_state pg' (0, 1) = Ok "agent-a1") /\
  add_agent (consts := sample_consts)
    (new_playground (consts := sample_consts) (3, 2) 0 0 3)
    (set_position (2, 0) agent) = Raise IndexError.
Proof.
  split; [| vm_compute; reflexivity].
  eexists. split; [vm_compute; reflexivity |].
  split; reflexivity.
Qed.

(** ** get_surrounding_cells *)

Lemma py_range_length lo hi : length (py_range lo hi) = Z.to_nat (hi - lo).
Proof. unfold py_range. rewrite length_map, length_seq. reflexivity. Qed.

Lemma py_range_lookup lo hi k :
  (k < Z.to_nat (hi - lo))%nat -> py_range lo hi !! k = Some (lo + Z.of_nat k).
Proof.
  intros Hk. unfold py_range. rewrite list_lookup_fmap.
  rewrite lookup_seq_lt by exact Hk. reflexivity.
Qed.

(** A loop body that never raises gives a list of the same length, element
    by element. *)
Lemma for_each_total {A B} (f : A -> result B) (g : A -> B) (l : list A) :
  (forall a, a ∈ l -> f a = Ok (g a)) -> for_each f l = Ok (map g l).
Proof.
  induction l as [| a l IH]; intros Hf; simpl; [reflexivity |].
  rewrite Hf by left. simpl.
  rewrite IH by (intros b Hb; apply Hf; right; exact Hb). reflexivity.
Qed.

Section Window.
Context {consts : Consts}.

(** The entry [get_surrounding_cells] reports for row [i], column [j]. *)
Definition window_entry (pg : Playground) (i j : Z) : string :=
  match surrounding_cell pg i j with Ok e => e | _ => OUT end.

Lemma surrounding_cell_rectangular pg i j :
  rectangular pg ->
  surrounding_cell pg i j = Ok (window_entry pg i j) /\
  if (0 <=? j) && (j <? xAxis pg) && (0 <=? i) && (i <? yAxis pg)
  then get_cell_state pg (j, i) = Ok (window_entry pg i j)
  else window_entry pg i j = OUT.
Proof.
  intros Hrect. pose proof Hrect as [Hlen Hrows].
  unfold window_entry, surrounding_cell.
  destruct (Z.ltb_spec i 0) as [Hi0 | Hi0]; simpl.
  { split; [reflexivity |].
    destruct (Z.leb_spec 0 i); [lia |]. rewrite !andb_false_r. reflexivity. }
  destruct (Z.ltb_spec j 0) as [Hj0 | Hj0]; simpl.
  { split; [reflexivity |].
    destruct (Z.leb_spec 0 j); [lia |]. reflexivity. }
  destruct (Z.leb_spec (Z.of_nat (length (grid pg))) i) as [Hih | Hih]; simpl.
  { split; [reflexivity |].
    destruct (Z.ltb_spec i (yAxis pg)); [lia |]. rewrite !andb_false_r. reflexivity. }
  destruct (lookup_lt_is_Some_2 (grid pg) 0%nat) as [row0 Hrow0]; [lia |].
  assert (H0 : py_getitem (grid pg) 0 = Ok row0).
  { apply py_getitem_Ok. exists 0%nat. split; [apply py_index_nonneg; lia | exact Hrow0]. }
  rewrite H0. simpl.
  pose proof (rectangular_row _ _ _ Hrect Hrow0) as Hw0.
  destruct (Z.leb_spec (Z.of_nat (length row0)) j) as [Hjw | Hjw].
  { split; [reflexivity |].
    destruct (Z.ltb_spec j (xAxis pg)); [lia |]. rewrite !andb_false_r. reflexivity. }
  destruct (get_cell_state_in_bounds pg j i Hrect) as (row & c & _ & _ & Hc);
    [lia | lia |].
  simpl in Hc. rewrite Hc. split; [reflexivity |].
  destruct (Z.leb_spec 0 j); [| lia]. destruct (Z.ltb_spec j (xAxis pg)); [| lia].
  destruct (Z.leb_spec 0 i); [| lia]. destruct (Z.ltb_spec i (yAxis pg)); [| lia].
  reflexivity.
Qed.

(** C8. On a rectangular grid and for a field of view [f >= 0] the call
    returns a square window of side [f] ([f] odd) or [f + 1] ([f] even),
    centred on the position: the entry in row [r], column [c] stands for the
    coordinate [(x - half + c, y - half + r)] with [half = (side - 1) / 2];
    it is the grid's cell state when that coordinate lies in
    [0, xAxis) x [0, yAxis), and the sentinel ['out'] otherwise. *)
Theorem get_surrounding_cells_window pg x y f
    (Hrect : rectangular pg) (Hf : 0 <= f) :
  let side := if Z.odd f then f else f + 1 in
  let half := (side - 1) / 2 in
  exists win,
    get_surrounding_cells pg (x, y) (Some f) = Ok win /\
    Z.of_nat (length win) = side /\
    forall r c, 0 <= r < side -> 0 <= c < side ->
      exists row e,
        win !! Z.to_nat r = Some row /\
        Z.of_nat (length row) = side /\
        row !! Z.to_nat c = Some e /\
        let ax := x - half + c in
        let ay := y - half + r in
        if (0 <=? ax) && (ax <? xAxis pg) && (0 <=? ay) && (ay <? yAxis pg)
        then get_cell_state pg (ax, ay) = Ok e
        else e = OUT.
Proof.
  intros side half.
  assert (Hside : side = 2 * (f / 2) + 1 /\ half = f / 2).
  { subst half side. destruct (Z.odd f) eqn:Hodd.
    - apply Z.odd_spec in Hodd as [k ->].
      replace (2 * k + 1 - 1) with (k * 2) by lia.
      rewrite Z.div_mul by lia.
      replace ((2 * k + 1) / 2) with k; [lia |].
      apply (Z.div_unique_pos _ _ _ 1); lia.
    - assert (Heven : Z.even f = true) by (rewrite <- Z.negb_odd, Hodd; reflexivity).
      apply Z.even_spec in Heven as [k ->].
      replace (2 * k + 1 - 1) with (k * 2) by lia.
      rewrite Z.div_mul by lia.
      replace (2 * k) with (k * 2) by lia. rewrite Z.div_mul by lia. lia. }
  destruct Hside as [Hside Hhalf].
  assert (Hh0 : 0 <= f / 2) by (apply Z.div_pos; lia).
  set (xs := py_range (x - f / 2) (x + f / 2 + 1)).
  set (ys := py_range (y - f / 2) (y + f / 2 + 1)).
  exists (map (fun i => map (fun j => window_entry pg i j) xs) ys).
  split; [| split].
  - unfold get_surrounding_cells. simpl. fold xs ys.
    apply for_each_total. intros i _.
    apply for_each_total. intros j _.
    apply surrounding_cell_rectangular, Hrect.
  - rewrite length_map. unfold ys. rewrite py_range_length. lia.
  - intros r c Hr Hc.
    exists (map (fun j => window_entry pg (y - f / 2 + r) j) xs),
           (window_entry pg (y - f / 2 + r) (x - f / 2 + c)).
    split; [| split; [| split]].
    + rewrite list_lookup_fmap. unfold ys.
      rewrite py_range_lookup by lia. simpl. do 3 f_equal. lia.
    + rewrite length_map. unfold xs. rewrite py_range_length. lia.
    + rewrite list_lookup_fmap. unfold xs.
      rewrite py_range_lookup by lia. simpl. do 2 f_equal. lia.
    + simpl. rewrite Hhalf.
      apply (surrounding_cell_rectangular pg (y - f / 2 + r) (x - f / 2 + c) Hrect).
Qed.

End Window.

Lemma get_surrounding_cells_window_witness :
  exists win,
    get_surrounding_cells (new_playground (consts := sample_consts) (3, 2) 0 0 3)
      (0, 0) (Some 2) = Ok win /\
    Z.of_nat (length win) = 3.
Proof.
  destruct (get_surrounding_cells_window
              (new_playground (consts := sample_consts) (3, 2) 0 0 3) 0 0 2
              (new_playground_rectangular 3 2 0 0 3) ltac:(lia))
    as (win & Hwin & Hlen & _).
  exists win. split; [exact Hwin | exact Hlen].
Defined.

(** ** Target selection *)

(** [min] returns the first element of minimal key: everything before it has
    a strictly larger key, everything after it a key at least as large. *)
Lemma min_from_split {A} (key : A -> Z) (l : list A) :
  forall best pre mid,
    (forall q, q ∈ pre -> key best < key q) ->
    (forall q, q ∈ mid -> key best <= key q) ->
    exists l1 l2,
      pre ++ best :: mid ++ l = l1 ++ min_from key best l :: l2 /\
      (forall q, q ∈ l1 -> key (min_from key best l) < key q) /\
      (forall q, q ∈ l2 -> key (min_from key best l) <= key q).
Proof.
  induction l as [| y l IH]; intros best pre mid Hpre Hmid; simpl.
  - exists pre, mid. rewrite app_nil_r. auto.
  - destruct (Z.ltb_spec (key y) (key best)) as [Hlt | Hge].
    + destruct (IH y (pre ++ best :: mid) []) as (l1 & l2 & Heq & H1 & H2).
      * intros q Hq. apply elem_of_app in Hq as [Hq | Hq].
        -- specialize (Hpre q Hq). lia.
        -- apply elem_of_cons in Hq as [-> | Hq]; [lia |].
           specialize (Hmid q Hq). lia.
      * intros q Hq. inversion Hq.
      * exists l1, l2. split; [| auto].
        rewrite <- Heq. simpl. rewrite <- app_assoc. reflexivity.
    + destruct (IH best pre (mid ++ [y])) as (l1 & l2 & Heq & H1 & H2).
      * exact Hpre.
      * intros q Hq. apply elem_of_app in Hq as [Hq | Hq]; [auto |].
        apply list_elem_of_singleton in Hq as ->. lia.
      * exists l1, l2. split; [| auto].
        rewrite <- Heq. rewrite <- app_assoc. reflexivity.
Qed.

Lemma list_remove_first {A} `{EqDecision A} (x : A) (l1 l2 : list A) :
  (forall q, q ∈ l1 -> q <> x) -> list_remove x (l1 ++ x :: l2) = Ok (l1 ++ l2).
Proof.
  induction l1 as [| y l1 IH]; intros Hne; simpl.
  - rewrite decide_True; reflexivity.
  - rewrite decide_False by (apply Hne; left).
    rewrite IH by (intros q Hq; apply Hne; right; exact Hq). reflexivity.
Qed.

Lemma find_nearest_target_split (a : Agent) (l : list Position) :
  l <> [] ->
  exists l1 p l2,
    l = l1 ++ p :: l2 /\
    (forall q, q ∈ l1 ->
       manhattan_distance (position a) p < manhattan_distance (position a) q) /\
    (forall q, q ∈ l2 ->
       manhattan_distance (position a) p <= manhattan_distance (position a) q) /\
    find_nearest_target a l = Ok (p, l1 ++ l2).
Proof.
  destruct l as [| y l]; [congruence | intros _].
  destruct (min_from_split (manhattan_distance (position a)) l y [] [])
    as (l1 & l2 & Heq & H1 & H2).
  { intros q Hq; inversion Hq. }
  { intros q Hq; inversion Hq. }
  simpl in Heq.
  exists l1, (min_from (manhattan_distance (position a)) y l), l2.
  repeat split; auto.
  change (find_nearest_target a (y :: l)) with
    (l' ← list_remove (min_from (manhattan_distance (position a)) y l) (y :: l);
     Ok (min_from (manhattan_distance (position a)) y l, l')).
  rewrite Heq.
  rewrite list_remove_first; [reflexivity |].
  intros q Hq ->. specialize (H1 _ Hq). lia.
Qed.

Section Target.
Context {rng : Random}.

(** C7. With a target that is set and not a random fallback, [update_target]
    changes nothing. Otherwise, when the belief list in use (holes when
    carrying, orbs when not) is not empty, the target becomes the element of
    that list nearest in Manhattan distance, the first one among equals; that
    occurrence leaves the list, and the rest of the agent, the other belief
    list included, is as before. *)
Theorem update_target_nearest_known (fuel : nat) (a : Agent)
    (env : Playground) (t : nat) :
  (target_position a <> None -> is_a_random_target a = false ->
   update_target fuel a env t = Ok (a, t)) /\
  (target_position a = None \/ is_a_random_target a = true ->
   (if has_ball a then hole_positions a else orb_positions a) <> [] ->
   exists l1 p l2,
     (if has_ball a then hole_positions a else orb_positions a) = l1 ++ p :: l2 /\
     (forall q, q ∈ l1 ->
        manhattan_distance (position a) p < manhattan_distance (position a) q) /\
     (forall q, q ∈ l2 ->
        manhattan_distance (position a) p <= manhattan_distance (position a) q) /\
     update_target fuel a env t =
     Ok (set_target (Some p) false
           (if has_ball a then set_hole_positions (l1 ++ l2) a
            else set_orb_positions (l1 ++ l2) a), t)).
Proof.
  split.
  - intros Hset Hrand. unfold update_target.
    rewrite bool_decide_eq_true_2 by exact Hset. rewrite Hrand. reflexivity.
  - intros Hre Hne.
    destruct (find_nearest_target_split a _ Hne) as (l1 & p & l2 & Heq & H1 & H2 & Hfind).
    exists l1, p, l2. repeat split; auto.
    unfold update_target.
    assert (Hguard : bool_decide (target_position a <> None)
                     && negb (is_a_random_target a) = false).
    { destruct Hre as [Hnone | Hrand].
      - rewrite bool_decide_eq_false_2; [reflexivity |]. rewrite Hnone. auto.
      - rewrite Hrand. apply andb_false_r. }
    rewrite Hguard.
    assert (Hlen : (0 <? length (if has_ball a then hole_positions a
                                 else orb_positions a))%nat = true).
    { apply Nat.ltb_lt. rewrite Heq, length_app. simpl. lia. }
    rewrite Hlen, Hfind. simpl. reflexivity.
Qed.

End Target.

Lemma update_target_nearest_known_witness :
  let a := mkAgent "a1" (0, 0) 3 [] {[(0, 0)]} UP 30 false
             [] [(2, 2); (1, 0); (0, 1)] None false ∅ in
  let env := mkPlayground 3 3 [] ∅ 0 0 ∅ 3 in
  exists a', update_target (rng := sample_random) 1 a env 0 = Ok (a', 0%nat) /\
             target_position a' = Some (1, 0) /\
             orb_positions a' = [(2, 2); (0, 1)].
Proof.
  intros a env.
  destruct (proj2 (update_target_nearest_known (rng := sample_random) 1 a env 0)
              (or_introl eq_refl) ltac:(discriminate))
    as (l1 & p & l2 & Heq & H1 & H2 & Hupd).
  eexists. split; [vm_compute; reflexivity | split; reflexivity].
Defined.

(** ** Movement *)

Section Movement.
Context {consts : Consts}.

(** [agent_exit_cell] only replaces the grid. *)
Lemma agent_exit_cell_frame pg agent pg' :
  agent_exit_cell pg agent = Ok pg' -> exists g, pg' = set_grid g pg.
Proof.
  unfold agent_exit_cell. intros Hexit.
  destruct (get_cell_state pg (position agent)); simpl in Hexit; try discriminate.
  destruct (position agent) as [x y].
  destruct (grid_write (grid pg) y x _) as [g1| |]; simpl in Hexit; try discriminate.
  destruct (grid_read g1 y x) as [c1| |]; simpl in Hexit; try discriminate.
  destruct (if String.eqb c1 "" then grid_write g1 y x EMPTY else Ok g1)
    as [g2| |]; simpl in Hexit; try discriminate.
  destruct (grid_read g2 y x) as [c2| |]; simpl in Hexit; try discriminate.
  destruct (last_char c2) as [last| |]; simpl in Hexit; try discriminate.
  destruct (if Ascii.eqb last "," then grid_write g2 y x (drop_last c2) else Ok g2)
    as [g3| |]; simpl in Hexit; try discriminate.
  injection Hexit as <-. eauto.
Qed.

(** [agent_enter_cell] reports failure only for a position its validity
    check refuses, and then nothing has changed. *)
Lemma agent_enter_cell_false pg p agent pg' :
  agent_enter_cell pg p agent = Ok (false, pg') ->
  is_valid_position pg (Some p) = false /\ pg' = pg.
Proof.
  unfold agent_enter_cell.
  destruct (is_valid_position pg (Some p)); simpl.
  - intros Henter.
    destruct (get_cell_state pg p); simpl in Henter; try discriminate.
    destruct p as [x y].
    destruct (agent_exit_cell pg agent) as [pg1| |]; simpl in Henter; try discriminate.
    destruct (grid_write (grid pg1) y x _); simpl in Henter; discriminate.
  - intros [= <-]. auto.
Qed.

Lemma agent_enter_cell_invalid pg p agent :
  is_valid_position pg (Some p) = false -> agent_enter_cell pg p agent = Ok (false, pg).
Proof. intros Hinv. unfold agent_enter_cell. rewrite Hinv. reflexivity. Qed.


Context {helpers : Helpers}.

Lemma take_step_forward_returns (a : Agent) (env : Playground) r a' env' :
  take_step_forward a env = Ok (r, a', env') ->
  r = true /\ battery a' = battery a - 1.
Proof.
  unfold take_step_forward.
  destruct (agent_enter_cell env _ _) as [[entered env1]| |];
    try discriminate.
  rewrite bind_Ok. destruct entered; intros [= <- <- <-]; auto.
Qed.

(** C10. [take_step_forward] never returns anything but True and always
    spends one unit of battery; when [agent_enter_cell] reports failure -
    which it does for every position its validity check refuses - the call
    still returns True, the playground, the position and the visited set are
    as before, and only the battery has changed. *)
Theorem take_step_forward_always_true (a : Agent) (env : Playground) :
  let new_position := get_new_position (direction a) (position a) in
  (forall r a' env',
     take_step_forward a env = Ok (r, a', env') ->
     r = true /\ battery a' = battery a - 1) /\
  (forall env',
     agent_enter_cell env new_position (set_battery (battery a - 1) a)
     = Ok (false, env') ->
     exists a', take_step_forward a env = Ok (true, a', env) /\
                a' = set_battery (battery a - 1) a /\
                position a' = position a /\
                visited_cell a' = visited_cell a /\
                battery a' = battery a - 1) /\
  (is_valid_position env (Some new_position) = false ->
   take_step_forward a env = Ok (true, set_battery (battery a - 1) a, env)).
Proof.
  intros new_position. split; [| split].
  - intros r a' env'. apply take_step_forward_returns.
  - intros env' Henter.
    pose proof (agent_enter_cell_false _ _ _ _ Henter) as [_ ->].
    exists (set_battery (battery a - 1) a).
    unfold take_step_forward. simpl. fold new_position.
    rewrite Henter. simpl. auto.
  - intros Hinv. unfold take_step_forward. simpl. fold new_position.
    rewrite agent_enter_cell_invalid by exact Hinv. reflexivity.
Qed.


End Movement.

Lemma take_step_forward_always_true_witness :
  let a := mkAgent "a1" (0, 0) 3 [] {[(0, 0)]} UP 30 false [] [] None false ∅ in
  let env := new_playground (consts := sample_consts) (2, 2) 0 0 3 in
  take_step_forward (consts := sample_consts)
    (helpers := sample_helpers) a env
  = Ok (true, set_battery 29 a, env).
Proof.
  intros a env.
  apply (proj2 (proj2 (take_step_forward_always_true (consts := sample_consts)
           (helpers := sample_helpers) a env))).
  reflexivity.
Defined.

(** ** Facts about [in] and [replace] on strings *)

Lemma prefix_app (old s : string) : String.prefix old (old +:+ s) = true.
Proof.
  induction old as [| c old IH]; simpl.
  - destruct s; reflexivity.
  - destruct (Ascii.ascii_dec c c) as [_ | Hne]; [exact IH | congruence].
Qed.

Lemma prefix_length (old s : string) :
  String.prefix old s = true -> (String.length old <= String.length s)%nat.
Proof.
  revert s. induction old as [| c old IH]; intros s; [simpl; lia |].
  destruct s as [| d s]; simpl; [discriminate |].
  destruct (Ascii.ascii_dec c d); [| discriminate].
  intros Hp. apply IH in Hp. lia.
Qed.

(** Characters passed over after a match are dropped unseen. *)
Lemma replace_from_skip old new (u s : string) :
  replace_from old new (String.length u) (u +:+ s) = replace_from old new 0 s.
Proof.
  induction u as [| c u IH]; simpl; [| exact IH].
  destruct s; reflexivity.
Qed.

Lemma replace_from_match old new s :
  old <> "" -> replace_from old new 0 (old +:+ s) = new +:+ replace_from old new 0 s.
Proof.
  intros Hne. destruct old as [| c old]; [congruence |].
  change (String c old +:+ s) with (String c (old +:+ s)).
  cbn [replace_from].
  change (String c (old +:+ s)) with (String c old +:+ s).
  rewrite prefix_app.
  replace (String.length (String c old) - 1)%nat with (String.length old)
    by (simpl; lia).
  rewrite replace_from_skip. reflexivity.
Qed.

Lemma replace_from_absent old new s :
  contains old s = false -> replace_from old new 0 s = s.
Proof.
  induction s as [| c s IH]; [reflexivity |].
  intros Hc. cbn [contains] in Hc.
  apply orb_false_iff in Hc as [Hp Hrest].
  cbn [replace_from]. rewrite Hp, (IH Hrest). reflexivity.
Qed.

(** A cell that starts with a token found nowhere behind it: replacing the
    token changes the head and nothing else. *)
Lemma replace_terrain tok new rest :
  tok <> "" -> contains tok rest = false ->
  replace tok new (tok +:+ rest) = new +:+ rest.
Proof.
  intros Hne Habs. unfold replace.
  destruct tok as [| c tok']; [congruence |].
  rewrite replace_from_match by congruence.
  rewrite replace_from_absent by exact Habs. reflexivity.
Qed.

Lemma append_cons (c : ascii) (s t : string) :
  String c s +:+ t = String c (s +:+ t).
Proof. reflexivity. Qed.

Lemma append_nil_l (s : string) : "" +:+ s = s.
Proof. reflexivity. Qed.

Lemma append_nil_r (s : string) : s +:+ "" = s.
Proof.
  induction s as [| c s IH]; [reflexivity |].
  rewrite append_cons, IH. reflexivity.
Qed.

Lemma append_assoc (a b c : string) : (a +:+ b) +:+ c = a +:+ (b +:+ c).
Proof.
  induction a as [| x a IH]; [reflexivity |].
  rewrite !append_cons, IH. reflexivity.
Qed.

(** A cell that is exactly the token. *)
Lemma replace_whole tok new : tok <> "" -> replace tok new tok = new.
Proof.
  intros Hne.
  rewrite <- (append_nil_r tok) at 2.
  rewrite replace_terrain; [apply append_nil_r | exact Hne |].
  destruct tok; [congruence | reflexivity].
Qed.

(** ** Orb redistribution and place_orb *)



Section Redistribution.
Context {consts : Consts} {rng : Random}.


(** *** One pass of the redistribution, told from outside *)












End Redistribution.



Section PlaceOrb.
Context {consts : Consts} {rng : Random} {helpers : Helpers}.



End PlaceOrb.



(** ** The cell encoding: a terrain token and comma-separated labels *)

(** [','.join(tokens)]. *)
Fixpoint join (tokens : list string) : string :=
  match tokens with
  | [] => ""
  | t :: ts =>
      match ts with
      | [] => t
      | _ :: _ => t +:+ "," +:+ join ts
      end
  end.

(** A cell holding terrain [T] and the occupant labels [ls]. *)
Definition cell_of (T : string) (ls : list string) : string := join (T :: ls).

Definition comma_free (s : string) : Prop := contains "," s = false.

(** A token of the encoding: not empty and without a comma. *)
Definition token (s : string) : Prop := s <> "" /\ comma_free s.

Lemma comma_free_cons c s :
  comma_free (String c s) <-> c <> ","%char /\ comma_free s.
Proof.
  unfold comma_free. cbn [contains String.prefix].
  destruct (Ascii.ascii_dec "," c) as [<- | Hne].
  - destruct s; simpl; split; try discriminate; intros [Hc _]; congruence.
  - simpl. split; [intros Hs; split; [congruence | exact Hs] | intros [_ Hs]; exact Hs].
Qed.

Lemma join_cons t t' ts : join (t :: t' :: ts) = t +:+ "," +:+ join (t' :: ts).
Proof. reflexivity. Qed.

Lemma join_app ts1 t ts2 :
  ts1 <> [] -> join (ts1 ++ t :: ts2) = join ts1 +:+ "," +:+ join (t :: ts2).
Proof.
  induction ts1 as [| a ts1 IH]; [congruence | intros _].
  destruct ts1 as [| b ts1]; [reflexivity |].
  change ((a :: b :: ts1) ++ t :: ts2) with (a :: ((b :: ts1) ++ t :: ts2)).
  change ((b :: ts1) ++ t :: ts2) with (b :: (ts1 ++ t :: ts2)).
  rewrite join_cons.
  change (b :: (ts1 ++ t :: ts2)) with ((b :: ts1) ++ t :: ts2).
  rewrite IH by discriminate.
  rewrite join_cons, !append_assoc. reflexivity.
Qed.

(** A match of a comma-free pattern cannot reach across a comma. *)
Lemma prefix_comma old a b :
  comma_free old -> old <> "" ->
  String.prefix old (a +:+ "," +:+ b) = String.prefix old a.
Proof.
  revert a. induction old as [| c old IH]; intros a Hcf Hne; [congruence |].
  apply comma_free_cons in Hcf as [Hc Hcf].
  destruct a as [| d a].
  - simpl. destruct (Ascii.ascii_dec c ","); [congruence | reflexivity].
  - rewrite append_cons. cbn [String.prefix].
    destruct (Ascii.ascii_dec c d); [| reflexivity].
    destruct old as [| c' old'] eqn:Hold.
    + destruct a; destruct b; reflexivity.
    + rewrite <- Hold in *. apply IH; [exact Hcf | congruence].
Qed.

(** Replacing a comma-free pattern works on each side of a comma apart. *)
Lemma replace_from_comma old new a b : forall k,
  comma_free old -> old <> "" -> (k <= String.length a)%nat ->
  replace_from old new k (a +:+ "," +:+ b)
  = replace_from old new k a +:+ "," +:+ replace_from old new 0 b.
Proof.
  induction a as [| d a IH]; intros k Hcf Hne Hk.
  - simpl in Hk. assert (k = 0%nat) as -> by lia.
    rewrite append_nil_l.
    change ("," +:+ b) with (String "," b).
    cbn [replace_from].
    change (String "," b) with ("" +:+ "," +:+ b).
    rewrite prefix_comma by auto.
    destruct old; [congruence |]. reflexivity.
  - rewrite append_cons. cbn [replace_from].
    destruct k as [| k].
    + change (String d (a +:+ "," +:+ b)) with (String d a +:+ "," +:+ b).
      rewrite prefix_comma by auto.
      destruct (String.prefix old (String d a)) eqn:Hp.
      * apply prefix_length in Hp. simpl in Hp.
        rewrite IH by (auto; lia). rewrite append_assoc. reflexivity.
      * rewrite IH by (auto; lia). reflexivity.
    + simpl in Hk. rewrite IH by (auto; lia). reflexivity.
Qed.

Lemma replace_from_join old new (ts : list string) :
  comma_free old -> old <> "" ->
  replace_from old new 0 (join ts) = join (map (replace_from old new 0) ts).
Proof.
  intros Hcf Hne. induction ts as [| t ts IH]; [reflexivity |].
  destruct ts as [| t' ts]; [reflexivity |].
  rewrite join_cons, replace_from_comma by (auto; lia).
  rewrite IH. reflexivity.
Qed.

Lemma append_eq_nil (s t : string) : s +:+ t = "" -> s = "" /\ t = "".
Proof. destruct s; [simpl; auto | rewrite append_cons; discriminate]. Qed.

Lemma join_nonempty ts : Forall token ts -> ts <> [] -> join ts <> "".
Proof.
  intros Hts Hne. destruct ts as [| t ts]; [congruence |].
  inversion Hts as [| ? ? [Ht _] _]; subst.
  destruct ts; [exact Ht |].
  rewrite join_cons. intros Heq. apply append_eq_nil in Heq as [? _]. auto.
Qed.

Lemma prefix_cons a s1 b s2 :
  String.prefix (String a s1) (String b s2)
  = if Ascii.ascii_dec a b then String.prefix s1 s2 else false.
Proof. reflexivity. Qed.

(** A comma followed by another character is no doubled comma. *)
Lemma prefix_commas_single c r :
  c <> ","%char -> String.prefix ",," (String "," (String c r)) = false.
Proof.
  intros Hc. rewrite !prefix_cons.
  destruct (Ascii.ascii_dec "," ","); [| congruence].
  destruct (Ascii.ascii_dec "," c); [congruence | reflexivity].
Qed.

(** Doubled commas: the scan passes a comma-free stretch unchanged. *)
Lemma replace_commas_skip t rest :
  comma_free t ->
  replace_from ",," "," 0 (t +:+ rest) = t +:+ replace_from ",," "," 0 rest.
Proof.
  induction t as [| c t IH]; intros Hcf; [reflexivity |].
  apply comma_free_cons in Hcf as [Hc Hcf].
  rewrite !append_cons. cbn [replace_from String.prefix].
  destruct (Ascii.ascii_dec "," c); [congruence |].
  rewrite IH by exact Hcf. reflexivity.
Qed.

(** A single comma in front of another character stays. *)
Lemma replace_commas_single c r :
  c <> ","%char ->
  replace_from ",," "," 0 (String "," (String c r))
  = String "," (replace_from ",," "," 0 (String c r)).
Proof.
  intros Hc. cbn [replace_from].
  rewrite prefix_commas_single by exact Hc. reflexivity.
Qed.

Lemma replace_commas_join ts : forall s,
  Forall token ts -> ts <> [] ->
  replace_from ",," "," 0 (join ts +:+ s) = join ts +:+ replace_from ",," "," 0 s.
Proof.
  induction ts as [| t ts IH]; intros s Hts Hne; [congruence |].
  inversion Hts as [| ? ? Ht Hts']; subst.
  destruct ts as [| t' ts].
  - simpl. apply replace_commas_skip, Ht.
  - rewrite join_cons, !append_assoc.
    rewrite replace_commas_skip by apply Ht.
    inversion Hts' as [| ? ? Ht' _]; subst.
    assert (Hj : exists c r, join (t' :: ts) = String c r /\ c <> ","%char).
    { destruct Ht' as [Hne' Hcf']. destruct t' as [| c r]; [congruence |].
      apply comma_free_cons in Hcf' as [Hc _].
      destruct ts; [exists c, r; auto |].
      rewrite join_cons, append_cons. eauto. }
    destruct Hj as (c & r & Hj & Hc).
    assert (Hstep : replace_from ",," "," 0 ("," +:+ join (t' :: ts) +:+ s)
                    = "," +:+ replace_from ",," "," 0 (join (t' :: ts) +:+ s)).
    { rewrite Hj, append_cons.
      exact (replace_commas_single c (r +:+ s) Hc). }
    rewrite Hstep, IH by (auto; discriminate). reflexivity.
Qed.

Lemma last_char_app s t : t <> "" -> last_char (s +:+ t) = last_char t.
Proof.
  intros Hne. induction s as [| c s IH]; [reflexivity |].
  rewrite append_cons. cbn [last_char].
  destruct (s +:+ t) eqn:Hst; [| exact IH].
  apply append_eq_nil in Hst as [_ ?]. congruence.
Qed.

Lemma drop_last_app s t : t <> "" -> drop_last (s +:+ t) = s +:+ drop_last t.
Proof.
  intros Hne. induction s as [| c s IH]; [reflexivity |].
  rewrite !append_cons. cbn [drop_last].
  destruct (s +:+ t) eqn:Hst; [| rewrite IH; reflexivity].
  apply append_eq_nil in Hst as [_ ?]. congruence.
Qed.

Lemma last_char_token t :
  token t -> exists c, last_char t = Ok c /\ c <> ","%char.
Proof.
  intros [Hne Hcf]. induction t as [| c t IH]; [congruence |].
  apply comma_free_cons in Hcf as [Hc Hcf].
  destruct t as [| d t]; [exists c; auto |].
  destruct IH as (e & He & Hne'); [discriminate | exact Hcf |].
  exists e. split; [| exact Hne']. exact He.
Qed.

Lemma last_char_join ts :
  Forall token ts -> ts <> [] -> exists c, last_char (join ts) = Ok c /\ c <> ","%char.
Proof.
  induction ts as [| t ts IH]; intros Hts Hne; [congruence |].
  inversion Hts as [| ? ? Ht Hts']; subst.
  destruct ts as [| t' ts]; [apply last_char_token, Ht |].
  rewrite join_cons, <- append_assoc.
  rewrite last_char_app by (apply join_nonempty; [exact Hts' | discriminate]).
  apply IH; [exact Hts' | discriminate].
Qed.

(** ** agent_exit_cell and agent_enter_cell on the encoding *)

Lemma grid_write_read_back g r c v g' :
  grid_write g r c v = Ok g' -> grid_read g' r c = Ok v.
Proof.
  intros Hw. apply grid_write_Ok in Hw as (i & j & row & Hi & Hr & Hj & ->).
  assert (Hil : (i < length g)%nat) by (eapply lookup_lt_Some; eauto).
  assert (Hjl : (j < length row)%nat) by (apply py_index_Some in Hj; tauto).
  apply grid_read_Ok. exists i, j, (<[j := v]> row).
  rewrite !length_insert. repeat split; auto.
  - apply list_lookup_insert_eq; auto.
  - apply list_lookup_insert_eq; auto.
Qed.

(** A second write to the same subscripts overrides the first. *)
Lemma grid_write_write g r c v g1 v' :
  grid_write g r c v = Ok g1 -> grid_write g1 r c v' = grid_write g r c v'.
Proof.
  intros Hw. apply grid_write_Ok in Hw as (i & j & row & Hi & Hr & Hj & ->).
  assert (Hil : (i < length g)%nat) by (eapply lookup_lt_Some; eauto).
  assert (Hw' : grid_write g r c v' = Ok (<[i := <[j := v']> row]> g)).
  { apply grid_write_Ok. exists i, j, row. auto. }
  rewrite Hw'. apply grid_write_Ok.
  exists i, j, (<[j := v]> row). rewrite !length_insert.
  repeat split; auto.
  - apply list_lookup_insert_eq; auto.
  - rewrite !list_insert_insert_eq. reflexivity.
Qed.

Section Encoding.
Context {consts : Consts}.

(** What [agent_exit_cell] makes of the cell state it reads. *)
Definition exit_string (label c : string) : result string :=
  let c1 := replace ",," "," (replace label "" c) in
  let c2 := if String.eqb c1 "" then EMPTY else c1 in
  last ← last_char c2;
  Ok (if Ascii.eqb last "," then drop_last c2 else c2).

Lemma agent_exit_cell_string pg agent c :
  get_cell_state pg (position agent) = Ok c ->
  agent_exit_cell pg agent =
  (s ← exit_string (get_label agent) c;
   g ← grid_write (grid pg) (position agent).2 (position agent).1 s;
   Ok (set_grid g pg)).
Proof.
  intros Hc. unfold agent_exit_cell, exit_string. rewrite Hc.
  destruct (position agent) as [x y]. simpl in Hc. cbn [fst snd].
  rewrite bind_Ok.
  set (c1 := replace ",," "," (replace (get_label agent) "" c)).
  destruct (grid_write_after_read (grid pg) y x c c1 Hc) as (g1 & Hw1 & Hr1 & _).
  rewrite Hw1, bind_Ok, Hr1, bind_Ok.
  destruct (String.eqb c1 "") eqn:Hnil.
  - destruct (grid_write_after_read g1 y x c1 EMPTY Hr1) as (g2 & Hw2 & Hr2 & _).
    rewrite Hw2, bind_Ok, Hr2, bind_Ok.
    destruct (last_char EMPTY) as [last| |]; try reflexivity.
    rewrite !bind_Ok.
    rewrite (grid_write_write _ _ _ _ _ _ Hw1) in Hw2.
    destruct (Ascii.eqb last ",").
    + rewrite (grid_write_write _ _ _ _ _ _ Hw2). reflexivity.
    + rewrite Hw2. reflexivity.
  - rewrite bind_Ok, Hr1, bind_Ok.
    destruct (last_char c1) as [last| |]; try reflexivity.
    rewrite !bind_Ok.
    destruct (Ascii.eqb last ",").
    + rewrite (grid_write_write _ _ _ _ _ _ Hw1). reflexivity.
    + rewrite Hw1. reflexivity.
Qed.

Lemma replace_from_label_tokens L (ls : list string) :
  Forall (fun l => contains L l = false) ls ->
  map (replace_from L "" 0) ls = ls.
Proof.
  induction 1 as [| l ls Hl _ IH]; [reflexivity |].
  simpl. rewrite replace_from_absent by exact Hl. rewrite IH. reflexivity.
Qed.

(** Leaving a cell [T,l1,..,L,..,ln]: the label goes, the rest stays. *)
Lemma exit_string_removes L T ls1 ls2 :
  token L -> token T -> contains L T = false ->
  Forall token ls1 -> Forall token ls2 ->
  Forall (fun l => contains L l = false) ls1 ->
  Forall (fun l => contains L l = false) ls2 ->
  exit_string L (cell_of T (ls1 ++ L :: ls2)) = Ok (cell_of T (ls1 ++ ls2)).
Proof.
  intros [HLne HLcf] HT HLT Hls1 Hls2 Habs1 Habs2.
  assert (Hpre : Forall token (T :: ls1)) by (constructor; auto).
  assert (HX : join (T :: ls1) <> "") by (apply join_nonempty; [auto | discriminate]).
  assert (Hr1 : replace L "" (cell_of T (ls1 ++ L :: ls2))
                = join (T :: ls1) +:+ "," +:+ join ("" :: ls2)).
  { unfold replace, cell_of. destruct L as [| c L'] eqn:HL; [congruence |].
    rewrite <- HL in *.
    rewrite replace_from_join by auto.
    cbn [map]. rewrite map_app. cbn [map].
    rewrite !replace_from_label_tokens by auto.
    rewrite (replace_from_absent L "" T) by exact HLT.
    assert (HLL : replace_from L "" 0 L = "").
    { rewrite <- (append_nil_r L) at 2.
      rewrite replace_from_match by exact HLne. reflexivity. }
    rewrite HLL.
    change (T :: ls1 ++ "" :: ls2) with ((T :: ls1) ++ "" :: ls2).
    apply join_app. discriminate. }
  unfold exit_string. rewrite Hr1. unfold cell_of.
  destruct ls2 as [| l ls2].
  - rewrite app_nil_r.
    change (join [""]) with "".
    assert (Hr2 : replace ",," "," (join (T :: ls1) +:+ "," +:+ "")
                  = join (T :: ls1) +:+ ",").
    { unfold replace. rewrite append_nil_r.
      rewrite replace_commas_join by (auto; discriminate). reflexivity. }
    rewrite Hr2.
    assert (Hnil : String.eqb (join (T :: ls1) +:+ ",") "" = false).
    { apply String.eqb_neq. intros Heq. apply append_eq_nil in Heq as [_ ?].
      discriminate. }
    rewrite Hnil, last_char_app by discriminate.
    change (last_char ",") with (Ok ","%char). rewrite bind_Ok.
    rewrite Ascii.eqb_refl, drop_last_app by discriminate.
    change (drop_last ",") with "". rewrite append_nil_r. reflexivity.
  - inversion Hls2 as [| ? ? Hl Hls2']; subst.
    change (join ("" :: l :: ls2)) with ("," +:+ join (l :: ls2)).
    assert (Hr2 : replace ",," "," (join (T :: ls1) +:+ "," +:+ "," +:+ join (l :: ls2))
                  = join (T :: ls1) +:+ "," +:+ join (l :: ls2)).
    { unfold replace.
      rewrite replace_commas_join by (auto; discriminate).
      change ("," +:+ "," +:+ join (l :: ls2)) with (",," +:+ join (l :: ls2)).
      rewrite replace_from_match by discriminate.
      rewrite <- (append_nil_r (join (l :: ls2))) at 1.
      rewrite replace_commas_join by (auto; discriminate).
      change (replace_from ",," "," 0 "") with "".
      rewrite append_nil_r. reflexivity. }
    rewrite Hr2.
    assert (Hjoin : join (T :: ls1) +:+ "," +:+ join (l :: ls2)
                    = join (T :: ls1 ++ l :: ls2)).
    { change (T :: ls1 ++ l :: ls2) with ((T :: ls1) ++ l :: ls2).
      symmetry. apply join_app. discriminate. }
    rewrite Hjoin.
    assert (Hall : Forall token (T :: ls1 ++ l :: ls2)).
    { constructor; [exact HT |]. apply Forall_app. auto. }
    assert (Hnil : String.eqb (join (T :: ls1 ++ l :: ls2)) "" = false).
    { apply String.eqb_neq, join_nonempty; [exact Hall | discriminate]. }
    rewrite Hnil.
    destruct (last_char_join _ Hall ltac:(discriminate)) as (c & Hc & Hcomma).
    rewrite Hc, bind_Ok.
    apply Ascii.eqb_neq in Hcomma. rewrite Hcomma. reflexivity.
Qed.

(** Leaving a cell that holds the label and nothing else. *)
Lemma exit_string_alone L :
  L <> "" -> token EMPTY -> exit_string L L = Ok EMPTY.
Proof.
  intros HL HE. unfold exit_string.
  rewrite replace_whole by exact HL.
  change (replace ",," "," "") with "".
  change (String.eqb "" "") with true. cbv iota.
  destruct (last_char_token _ HE) as (c & Hc & Hcomma).
  rewrite Hc, bind_Ok. apply Ascii.eqb_neq in Hcomma. rewrite Hcomma. reflexivity.
Qed.

End Encoding.

Lemma grid_write_frame g r c v g' :
  grid_write g r c v = Ok g' -> 0 <= r -> 0 <= c ->
  forall r' c', 0 <= r' -> 0 <= c' -> (r', c') <> (r, c) ->
                grid_read g' r' c' = grid_read g r' c'.
Proof.
  intros Hw Hr Hc.
  pose proof Hw as Hw0.
  apply grid_write_Ok in Hw0 as (i & j & row & Hi & Hrow & Hj & _).
  destruct (lookup_lt_is_Some_2 row j) as [v0 Hv0].
  { apply py_index_Some in Hj. tauto. }
  assert (Hread : grid_read g r c = Ok v0).
  { apply grid_read_Ok. exists i, j, row. auto. }
  destruct (grid_write_after_read g r c v0 v Hread) as (g'' & Hw' & _ & _ & Hframe).
  rewrite Hw in Hw'. injection Hw' as <-.
  intros r' c' Hr' Hc' Hne. apply Hframe; auto.
Qed.

Section ExitEnter.
Context {consts : Consts}.

Lemma agent_exit_cell_other pg agent pg' :
  agent_exit_cell pg agent = Ok pg' ->
  0 <= (position agent).1 -> 0 <= (position agent).2 ->
  forall q, 0 <= q.1 -> 0 <= q.2 -> q <> position agent ->
            get_cell_state pg' q = get_cell_state pg q.
Proof.
  intros Hexit Hx Hy [qx qy] Hqx Hqy Hne.
  destruct (get_cell_state pg (position agent)) as [c| |] eqn:Hc;
    try (unfold agent_exit_cell in Hexit; rewrite Hc in Hexit; discriminate).
  rewrite (agent_exit_cell_string _ _ _ Hc) in Hexit.
  destruct (exit_string (get_label agent) c) as [s| |]; try discriminate.
  rewrite bind_Ok in Hexit.
  destruct (grid_write (grid pg) _ _ s) as [g| |] eqn:Hw; try discriminate.
  rewrite bind_Ok in Hexit. injection Hexit as <-.
  destruct (position agent) as [x y]. simpl in *.
  eapply grid_write_frame; eauto. intros [= -> ->]. auto.
Qed.

(** Leaving succeeds with the string [exit_string] computes. *)
Lemma agent_exit_cell_result pg agent c s :
  get_cell_state pg (position agent) = Ok c ->
  exit_string (get_label agent) c = Ok s ->
  exists pg', agent_exit_cell pg agent = Ok pg' /\
              get_cell_state pg' (position agent) = Ok s.
Proof.
  intros Hc Hs. rewrite (agent_exit_cell_string _ _ _ Hc), Hs, bind_Ok.
  destruct (position agent) as [x y]. simpl in *.
  destruct (grid_write_after_read (grid pg) y x c s Hc) as (g & Hw & Hr & _).
  rewrite Hw, bind_Ok. exists (set_grid g pg). auto.
Qed.

(** C9, counterexample. Two agents with the ids 1 and 12 share an Empty
    cell; when the first leaves, the label of the second is cut as well and
    the cell reads [empty,2]. And a start cell, which holds a label and no
    terrain token since [add_agent] overwrites the cell, reads [,agent-b]
    after a visitor came and the owner left; when the visitor leaves too the
    cell is the empty string, not Empty. *)
Lemma agent_exit_cell_breaks_encoding :
  (let pg := mkPlayground 1 1 [["empty,agent-12,agent-1"]] ∅ 0 0 ∅ 3 in
   let agent := mkAgent "1" (0, 0) 3 [] {[(0, 0)]} UP 30 false [] [] None false ∅ in
   get_label (consts := sample_consts) agent = "agent-1" /\
   exists pg', agent_exit_cell (consts := sample_consts) pg agent = Ok pg' /\
               get_cell_state pg' (0, 0) = Ok "empty,2") /\
  (let pg := mkPlayground 1 1 [[",agent-b"]] ∅ 0 0 ∅ 3 in
   let agent := mkAgent "b" (0, 0) 3 [] {[(0, 0)]} UP 30 false [] [] None false ∅ in
   exists pg', agent_exit_cell (consts := sample_consts) pg agent = Ok pg' /\
               get_cell_state pg' (0, 0) = Ok "").
Proof.
  split.
  - split; [reflexivity |].
    eexists. split; [vm_compute; reflexivity | reflexivity].
  - eexists. split; [vm_compute; reflexivity | reflexivity].
Qed.

(** C9, amended. Let the agent's label [L] be a token (not empty, no
    comma). Leaving a cell encoded as a terrain token followed by labels,
    [T,l1,..,L,..,ln], none of which contains [L] as a substring, removes
    [L] and keeps the terrain token and the other labels in order; leaving a
    cell that holds [L] alone gives Empty; no other cell changes. Entering a
    destination (a call that returns True) makes the destination the state
    read there followed by [,L], so a cell [T,l1,..,ln] becomes
    [T,l1,..,ln,L]; cells other than the destination and the cell left are
    untouched. *)
Theorem agent_exit_enter_keep_terrain (pg : Playground) (agent : Agent) :
  let L := get_label agent in
  (forall T ls1 ls2,
     token L -> token T -> contains L T = false ->
     Forall token ls1 -> Forall token ls2 ->
     Forall (fun l => contains L l = false) ls1 ->
     Forall (fun l => contains L l = false) ls2 ->
     get_cell_state pg (position agent) = Ok (cell_of T (ls1 ++ L :: ls2)) ->
     exists pg',
       agent_exit_cell pg agent = Ok pg' /\
       get_cell_state pg' (position agent) = Ok (cell_of T (ls1 ++ ls2))) /\
  (L <> "" -> token EMPTY ->
   get_cell_state pg (position agent) = Ok L ->
   exists pg',
     agent_exit_cell pg agent = Ok pg' /\
     get_cell_state pg' (position agent) = Ok EMPTY) /\
  (forall pg',
     agent_exit_cell pg agent = Ok pg' ->
     0 <= (position agent).1 -> 0 <= (position agent).2 ->
     forall q, 0 <= q.1 -> 0 <= q.2 -> q <> position agent ->
               get_cell_state pg' q = get_cell_state pg q) /\
  (forall p T ls pg',
     agent_enter_cell pg p agent = Ok (true, pg') ->
     get_cell_state pg p = Ok (cell_of T ls) ->
     get_cell_state pg' p = Ok (cell_of T (ls ++ [L])) /\
     (0 <= (position agent).1 -> 0 <= (position agent).2 ->
      forall q, 0 <= q.1 -> 0 <= q.2 -> q <> position agent -> q <> p ->
                get_cell_state pg' q = get_cell_state pg q)).
Proof.
  intros L. split; [| split; [| split]].
  - intros T ls1 ls2 HL HT HLT H1 H2 Ha1 Ha2 Hc.
    eapply agent_exit_cell_result; [exact Hc |].
    apply exit_string_removes; auto.
  - intros HL HE Hc.
    eapply agent_exit_cell_result; [exact Hc |].
    apply exit_string_alone; auto.
  - intros pg'. apply agent_exit_cell_other.
  - intros [x y] T ls pg' Henter Hc.
    unfold agent_enter_cell in Henter.
    destruct (is_valid_position pg (Some (x, y))) eqn:Hvalid;
      cbn [negb] in Henter; [| discriminate].
    apply is_valid_position_iff in Hvalid as [Hx Hy].
    rewrite Hc, bind_Ok in Henter.
    destruct (agent_exit_cell pg agent) as [pg1| |] eqn:Hexit; try discriminate.
    rewrite bind_Ok in Henter.
    destruct (grid_write (grid pg1) y x _) as [g| |] eqn:Hw; try discriminate.
    rewrite bind_Ok in Henter. injection Henter as <-.
    split.
    + simpl. rewrite (grid_write_read_back _ _ _ _ _ Hw). f_equal.
      unfold cell_of.
      change (T :: ls ++ [L]) with ((T :: ls) ++ [L]).
      rewrite join_app by discriminate. reflexivity.
    + intros Hax Hay [qx qy] Hqx Hqy Hqa Hqp. simpl in Hqx, Hqy.
      rewrite <- (agent_exit_cell_other _ _ _ Hexit Hax Hay (qx, qy)) by auto.
      simpl. eapply grid_write_frame; eauto; try lia.
      intros [= -> ->]. auto.
Qed.

End ExitEnter.

Lemma agent_exit_enter_keep_terrain_witness :
  let pg := mkPlayground 1 1 [["hole,agent-a,agent-b"]] ∅ 1 0 ∅ 3 in
  let agent := mkAgent "a" (0, 0) 3 [] {[(0, 0)]} UP 30 false [] [] None false ∅ in
  exists pg', agent_exit_cell (consts := sample_consts) pg agent = Ok pg' /\
              get_cell_state pg' (0, 0) = Ok "hole,agent-b".
Proof.
  intros pg agent.
  apply (proj1 (agent_exit_enter_keep_terrain (consts := sample_consts) pg agent)
           "hole" [] ["agent-b"]).
  - split; [discriminate | reflexivity].
  - split; [discriminate | reflexivity].
  - reflexivity.
  - constructor.
  - constructor; [split; [discriminate | reflexivity] | constructor].
  - constructor.
  - constructor; [reflexivity | constructor].
  - reflexivity.
Defined.

(** ** The round *)

(** Four iterations are enough for the turning loop to face any direction. *)
Lemma turn_until_faces d a : direction (turn_until 4 d a) = d.
Proof. destruct a as [? ? ? ? ? d0 ? ? ? ? ? ? ?]. destruct d0, d; reflexivity. Qed.

Section Round.
Context {consts : Consts} {rng : Random} {helpers : Helpers}.

Lemma for_each_returns_or_raises {A B} (f : A -> result B) (l : list A) :
  (forall a, f a <> OutOfFuel) -> for_each f l <> OutOfFuel.
Proof.
  intros Hf. induction l as [| a l IH]; simpl; [discriminate |].
  specialize (Hf a). destruct (f a); simpl; try congruence.
  destruct (for_each f l); simpl; congruence.
Qed.

Lemma get_surrounding_cells_returns_or_raises pg p f :
  get_surrounding_cells pg p f <> OutOfFuel.
Proof.
  unfold get_surrounding_cells. destruct p as [x y].
  apply for_each_returns_or_raises. intros i.
  apply for_each_returns_or_raises. intros j.
  unfold surrounding_cell, grid_read, py_getitem.
  repeat match goal with
         | |- context [match ?x with _ => _ end] => destruct x; simpl
         end; discriminate.
Qed.

Lemma get_surrounding_cells_rectangular pg p f :
  rectangular pg -> exists cells, get_surrounding_cells pg p (Some f) = Ok cells.
Proof.
  intros Hrect. destruct p as [x y]. unfold get_surrounding_cells. cbn [default].
  eexists. apply for_each_total. intros i _.
  apply (for_each_total _ (fun j => window_entry pg i j)). intros j _.
  apply surrounding_cell_rectangular, Hrect.
Qed.

(** Whatever the agent carries, the first test that is evaluated looks up a
    method the playground does not have. *)
Lemma interact_with_environment_raises a env t :
  interact_with_environment a env t = Raise AttributeError.
Proof. unfold interact_with_environment. destruct (has_ball a); reflexivity. Qed.

Lemma agent_turn_skips pg a : battery a < 0 -> agent_turn pg a = Ok (a, pg).
Proof.
  intros Hb. unfold agent_turn.
  destruct (Z.ltb_spec (battery a) 0); [reflexivity | lia].
Qed.

Lemma agent_turn_raises pg a :
  0 <= battery a ->
  (exists e, agent_turn pg a = Raise e) /\
  (rectangular pg -> agent_turn pg a = Raise AttributeError).
Proof.
  intros Hb. unfold agent_turn.
  destruct (Z.ltb_spec (battery a) 0); [lia |].
  split.
  - pose proof (get_surrounding_cells_returns_or_raises pg (position a)
                  (Some (field_of_view a))) as Hcells.
    destruct (get_surrounding_cells pg (position a) (Some (field_of_view a)));
      simpl; eauto. congruence.
  - intros Hrect.
    destruct (get_surrounding_cells_rectangular pg (position a) (field_of_view a) Hrect)
      as [cells ->].
    reflexivity.
Qed.

(** The loop either passes over every agent, all of them having a negative
    battery, or stops with an exception at the first agent that has not. *)
Lemma round_loop_outcome pg (l : list Agent) :
  (Forall (fun a => battery a < 0) l -> round_loop pg l = Ok (l, pg)) /\
  (Exists (fun a => 0 <= battery a) l ->
   (exists e, round_loop pg l = Raise e) /\
   (rectangular pg -> round_loop pg l = Raise AttributeError)).
Proof.
  induction l as [| a l [IHskip IHraise]].
  - split; [reflexivity |]. intros H. inversion H.
  - change (round_loop pg (a :: l)) with
      (agent_turn pg a ≫= fun '(agent', pg') =>
       round_loop pg' l ≫= fun '(l'', pg'') => Ok (agent' :: l'', pg'')).
    split.
    + intros Hall. apply Forall_cons in Hall as [Ha Hall].
      rewrite (agent_turn_skips pg a Ha), bind_Ok, (IHskip Hall). reflexivity.
    + intros Hex.
      destruct (Z.lt_ge_cases (battery a) 0) as [Ha | Ha].
      * apply Exists_cons in Hex as [Hex | Hex]; [lia |].
        rewrite (agent_turn_skips pg a Ha), bind_Ok.
        destruct (IHraise Hex) as [[e He] Hrect]. split.
        -- exists e. rewrite He. reflexivity.
        -- intros Hr. rewrite (Hrect Hr). reflexivity.
      * destruct (agent_turn_raises pg a Ha) as [[e He] Hrect]. split.
        -- exists e. rewrite He. reflexivity.
        -- intros Hr. rewrite (Hrect Hr). reflexivity.
Qed.

Lemma eligible_or_not (l : list Agent) :
  Forall (fun a => battery a < 0) l \/ Exists (fun a => 0 <= battery a) l.
Proof.
  induction l as [| a l [IH | IH]]; [left; constructor | |].
  - destruct (Z.lt_ge_cases (battery a) 0); [left | right]; constructor; auto.
  - right. apply Exists_cons. right. exact IH.
Qed.

(** C3 (the code departs from the claim). No round runs to its end, and no
    battery is spent in it. [next_round] raises for every controller: at
    the first agent with a battery of 0 or more, because [see] returns None
    and the chained [.action] is looked up on it; and when every agent is
    passed over, at the report line behind the loop, which calls a method
    the agent does not have (or subscripts an empty roster). On a grid of
    the shape the constructor gives, the exception is AttributeError
    whenever there is an agent, and IndexError when there is none. Only an
    agent with a negative battery is treated as the claim says: the loop
    passes over it, and agent and playground are as before. [action],
    called on its own, raises AttributeError as well: its interaction test
    looks up [is_a_hole_cell] or [is_a_orb_cell], which the playground does
    not define. *)
Theorem next_round_raises (c : Controller) :
  (exists e, next_round c = Raise e) /\
  (rectangular (playground c) ->
   next_round c =
   Raise (match agents c with [] => IndexError | _ :: _ => AttributeError end)) /\
  (forall pg a, battery a < 0 -> agent_turn pg a = Ok (a, pg)) /\
  (forall fuel a env t, action fuel a env t = Raise AttributeError).
Proof.
  split; [| split; [| split]].
  - unfold next_round.
    destruct (eligible_or_not (agents c)) as [Hall | Hex].
    + rewrite (proj1 (round_loop_outcome (playground c) (agents c)) Hall), bind_Ok.
      destruct (agents c); [exists IndexError | exists AttributeError]; reflexivity.
    + destruct (proj1 (proj2 (round_loop_outcome (playground c) (agents c)) Hex))
        as [e ->].
      exists e. reflexivity.
  - intros Hrect. unfold next_round.
    destruct (eligible_or_not (agents c)) as [Hall | Hex].
    + rewrite (proj1 (round_loop_outcome (playground c) (agents c)) Hall), bind_Ok.
      destruct (agents c); reflexivity.
    + rewrite (proj2 (proj2 (round_loop_outcome (playground c) (agents c)) Hex) Hrect).
      destruct (agents c); [inversion Hex | reflexivity].
  - intros pg a. apply agent_turn_skips.
  - intros fuel a env t. unfold action.
    rewrite interact_with_environment_raises. reflexivity.
Qed.

End Round.

(** C3, at the failing input: one agent with battery 5 on a 2 x 2 grid. The
    round raises AttributeError; the agent never steps. *)
Lemma next_round_raises_witness :
  let a := mkAgent "a1" (0, 0) 3 [] {[(0, 0)]} UP 5 false [] [] None false ∅ in
  let pg := new_playground (consts := sample_consts) (2, 2) 0 0 3 in
  next_round (mkController pg [a]) = Raise AttributeError.
Proof.
  intros a pg.
  apply (proj1 (proj2 (next_round_raises (consts := sample_consts)
                         (rng := sample_random) (helpers := sample_helpers)
                         (mkController pg [a])))).
  apply new_playground_rectangular.
Defined.

(** * Further properties of the modelled code *)

#[local] Set Warnings "-clear-no-such-hyp".

(** ** Distances and directions *)

(** [manhattan_distance] is a metric on positions. *)
Theorem manhattan_distance_metric (p q r : Position) :
  0 <= manhattan_distance p q /\
  (manhattan_distance p q = 0 <-> p = q) /\
  manhattan_distance p q = manhattan_distance q p /\
  manhattan_distance p r <= manhattan_distance p q + manhattan_distance q r.
Proof.
  destruct p as [px py], q as [qx qy], r as [rx ry].
  unfold manhattan_distance. simpl.
  repeat split; try lia.
  - intros Hd. f_equal; lia.
  - intros [= -> ->]. lia.
Qed.

(** [turn_clockwise] steps through up, right, down, left and back to up;
    it touches nothing but the direction, so four turns restore the agent. *)
Theorem turn_clockwise_cycle (a : Agent) :
  direction (turn_clockwise a) =
    match direction a with
    | UP => RIGHT | RIGHT => DOWN | DOWN => LEFT | LEFT => UP
    end /\
  turn_clockwise a = set_direction (direction (turn_clockwise a)) a /\
  turn_clockwise (turn_clockwise (turn_clockwise (turn_clockwise a))) = a.
Proof.
  destruct a as [? ? ? ? ? d ? ? ? ? ? ? ?]. destruct d; repeat split.
Qed.

Lemma turn_until_only_direction n d a :
  turn_until n d a = set_direction (direction (turn_until n d a)) a.
Proof.
  revert a. induction n as [| n IH]; intros a; simpl.
  - destruct (decide (direction a = d)); destruct a; reflexivity.
  - destruct (decide (direction a = d)); [destruct a; reflexivity |].
    rewrite IH at 1.
    destruct a as [? ? ? ? ? d0 ? ? ? ? ? ? ?]. reflexivity.
Qed.

(** The orientation step of [action]: the turning loops end, the agent
    faces right or left when the target's x differs, down or up when only
    its y differs, keeps its direction on the target, and nothing but the
    direction changes. *)
Theorem face_target_faces (a : Agent) (tx ty : Z) :
  let a' := face_target a (tx, ty) in
  a' = set_direction (direction a') a /\
  ((position a).1 < tx -> direction a' = RIGHT) /\
  (tx < (position a).1 -> direction a' = LEFT) /\
  ((position a).1 = tx -> (position a).2 < ty -> direction a' = DOWN) /\
  ((position a).1 = tx -> ty < (position a).2 -> direction a' = UP) /\
  (position a = (tx, ty) -> a' = a).
Proof.
  unfold face_target.
  destruct (Z.ltb_spec (position a).1 tx) as [Hlt | Hge].
  { split; [apply turn_until_only_direction |].
    repeat split; intros; try lia; try apply turn_until_faces.
    match goal with H : position a = _ |- _ => rewrite H in Hlt; simpl in Hlt; lia end. }
  destruct (Z.ltb_spec tx (position a).1) as [Hgt | Hle].
  { split; [apply turn_until_only_direction |].
    repeat split; intros; try lia; try apply turn_until_faces.
    match goal with H : position a = _ |- _ => rewrite H in Hgt; simpl in Hgt; lia end. }
  destruct (Z.ltb_spec (position a).2 ty) as [Hlt | Hge'].
  { split; [apply turn_until_only_direction |].
    repeat split; intros; try lia; try apply turn_until_faces.
    match goal with H : position a = _ |- _ => rewrite H in Hlt; simpl in Hlt; lia end. }
  destruct (Z.ltb_spec ty (position a).2) as [Hgt | Hle'].
  { split; [apply turn_until_only_direction |].
    repeat split; intros; try lia; try apply turn_until_faces.
    match goal with H : position a = _ |- _ => rewrite H in Hgt; simpl in Hgt; lia end. }
  split; [destruct a; reflexivity |].
  repeat split; intros; try lia; reflexivity.
Qed.

Lemma face_target_faces_witness :
  let a := mkAgent "a1" (0, 0) 3 [] {[(0, 0)]} UP 5 false [] [] None false ∅ in
  direction (face_target a (0, 3)) = DOWN.
Proof.
  intros a.
  apply (proj1 (proj2 (proj2 (proj2 (face_target_faces a 0 3)))));
    [reflexivity | simpl; lia].
Defined.

(** ** Views of a negative size *)

(** A negative field of view gives an empty window, on any grid and
    without raising. *)
Theorem get_surrounding_cells_negative {consts : Consts} (pg : Playground)
    (p : Position) (f : Z) :
  f < 0 -> get_surrounding_cells pg p (Some f) = Ok [].
Proof.
  intros Hf. destruct p as [x y]. unfold get_surrounding_cells. simpl.
  assert (Hh : f / 2 <= -1).
  { assert (f / 2 < 0) by (apply Z.div_lt_upper_bound; lia). lia. }
  assert (Hrows : py_range (y - f / 2) (y + f / 2 + 1) = []).
  { unfold py_range.
    replace (Z.to_nat (y + f / 2 + 1 - (y - f / 2))) with 0%nat by lia.
    reflexivity. }
  rewrite Hrows. reflexivity.
Qed.

Lemma get_surrounding_cells_negative_witness :
  get_surrounding_cells (new_playground (consts := sample_consts) (3, 2) 0 0 3)
    (1, 1) (Some (-1)) = Ok [].
Proof.
  apply (get_surrounding_cells_negative (consts := sample_consts)). lia.
Defined.

(** ** pick_orb *)

Section PickOrb.
Context {consts : Consts}.

(** [pick_orb] returns False with nothing changed exactly when the validity
    check refuses the position or the cell read there has no Orb token. With
    the token present and the position registered, it returns True, Orb is
    replaced by Empty in that cell, the position leaves the registry and no
    other cell changes; with the token present and the position not
    registered, [set.remove] raises KeyError. *)
Theorem pick_orb_cases (pg : Playground) (p : Position) :
  (forall pg',
     pick_orb pg p = Ok (false, pg') <->
     pg' = pg /\
     (is_valid_position pg (Some p) = false \/
      exists c, get_cell_state pg p = Ok c /\ contains ORB c = false)) /\
  (forall c,
     is_valid_position pg (Some p) = true ->
     get_cell_state pg p = Ok c -> contains ORB c = true ->
     p ∈ orb_registry pg ->
     exists pg',
       pick_orb pg p = Ok (true, pg') /\
       get_cell_state pg' p = Ok (replace ORB EMPTY c) /\
       orb_registry pg' = orb_registry pg ∖ {[p]} /\
       (forall q, 0 <= q.1 -> 0 <= q.2 -> q <> p ->
                  get_cell_state pg' q = get_cell_state pg q)) /\
  (forall c,
     is_valid_position pg (Some p) = true ->
     get_cell_state pg p = Ok c -> contains ORB c = true ->
     p ∉ orb_registry pg ->
     pick_orb pg p = Raise KeyError).
Proof.
  split; [| split].
  - intros pg'. unfold pick_orb. split.
    + destruct (is_valid_position pg (Some p)); cbn [negb];
        [| intros [= <-]; auto].
      destruct (get_cell_state pg p) as [c| |] eqn:Hc; try discriminate.
      rewrite bind_Ok.
      destruct (contains ORB c) eqn:Horb; cbn [negb].
      * destruct p as [x y].
        destruct (grid_write (grid pg) y x _) as [g| |]; try discriminate.
        rewrite bind_Ok.
        destruct (set_remove (x, y) (orb_registry pg)); discriminate.
      * intros [= <-]. split; [reflexivity |]. right. eauto.
    + intros (-> & Hcase).
      destruct (is_valid_position pg (Some p)) eqn:Hvalid; cbn [negb];
        [| reflexivity].
      destruct Hcase as [Hcase | (c & Hc & Horb)]; [discriminate |].
      rewrite Hc, bind_Ok, Horb. reflexivity.
  - intros c Hvalid Hc Horb Hreg.
    destruct p as [x y]. simpl in Hc.
    pose proof Hvalid as Hpos. apply is_valid_position_iff in Hpos.
    destruct (grid_write_after_read (grid pg) y x c (replace ORB EMPTY c) Hc)
      as (g & Hw & Hr & _ & Hframe).
    exists (set_orb_registry (orb_registry pg ∖ {[(x, y)]}) (set_grid g pg)).
    repeat split; auto.
    + unfold pick_orb. rewrite Hvalid. cbn [negb].
      change (get_cell_state pg (x, y)) with (grid_read (grid pg) y x).
      rewrite Hc, bind_Ok, Horb. cbn [negb]. rewrite Hw, bind_Ok.
      unfold set_remove. rewrite decide_True by exact Hreg. reflexivity.
    + intros [qx qy] Hqx Hqy Hne. simpl in *.
      apply Hframe; try lia. intros [= -> ->]. auto.
  - intros c Hvalid Hc Horb Hreg.
    destruct p as [x y]. simpl in Hc.
    destruct (grid_write_after_read (grid pg) y x c (replace ORB EMPTY c) Hc)
      as (g & Hw & _).
    unfold pick_orb. rewrite Hvalid. cbn [negb].
    change (get_cell_state pg (x, y)) with (grid_read (grid pg) y x).
    rewrite Hc, bind_Ok, Horb. cbn [negb]. rewrite Hw, bind_Ok.
    unfold set_remove. rewrite decide_False by exact Hreg. reflexivity.
Qed.

End PickOrb.

Lemma pick_orb_cases_witness :
  let pg := mkPlayground 2 2 [["orb"; "empty"]; ["empty"; "hole"]] ∅ 1 1 {[(0, 0)]} 3 in
  exists pg',
    pick_orb (consts := sample_consts) pg (0, 0) = Ok (true, pg') /\
    get_cell_state pg' (0, 0) = Ok "empty" /\
    orb_registry pg' = orb_registry pg ∖ {[(0, 0)]}.
Proof.
  intros pg.
  destruct (proj1 (proj2 (pick_orb_cases (consts := sample_consts) pg (0, 0)))
              "orb" eq_refl eq_refl eq_refl
              (proj2 (elem_of_singleton (C := gset Position) (0, 0) (0, 0)) eq_refl))
    as (pg' & Hpick & Hc & Hreg & _).
  exists pg'. split; [exact Hpick | split; [exact Hc | exact Hreg]].
Defined.

(** ** Perception *)

Section Perception.
Context {consts : Consts}.

(** How a scan may change an agent: both belief lists are extended at the
    end and stay free of duplicates, the set of filled holes grows, and
    nothing else changes. *)
Definition beliefs_grow (a a' : Agent) : Prop :=
  (exists l, orb_positions a' = orb_positions a ++ l) /\
  (exists l, hole_positions a' = hole_positions a ++ l) /\
  filled_hole_positions a ⊆ filled_hole_positions a' /\
  (NoDup (orb_positions a) -> NoDup (orb_positions a')) /\
  (NoDup (hole_positions a) -> NoDup (hole_positions a')) /\
  a' = set_filled_hole_positions (filled_hole_positions a')
         (set_hole_positions (hole_positions a')
            (set_orb_positions (orb_positions a') a)).

Lemma beliefs_grow_refl a : beliefs_grow a a.
Proof.
  repeat split; auto; try (exists []; rewrite app_nil_r; reflexivity).
  destruct a; reflexivity.
Qed.

Lemma beliefs_grow_trans a b c :
  beliefs_grow a b -> beliefs_grow b c -> beliefs_grow a c.
Proof.
  intros ([l1 Ho1] & [m1 Hh1] & Hf1 & Hn1 & Hm1 & He1)
         ([l2 Ho2] & [m2 Hh2] & Hf2 & Hn2 & Hm2 & He2).
  repeat split; auto.
  - exists (l1 ++ l2). rewrite Ho2, Ho1, app_assoc. reflexivity.
  - exists (m1 ++ m2). rewrite Hh2, Hh1, app_assoc. reflexivity.
  - set_solver.
  - rewrite He2. rewrite He1 at 1. reflexivity.
Qed.

Lemma learn_orb a env (b : bool) :
  let a1 := if b && negb (bool_decide (env ∈ orb_positions a))
            then set_orb_positions (orb_positions a ++ [env]) a else a in
  beliefs_grow a a1 /\ (b = true -> env ∈ orb_positions a1).
Proof.
  destruct b; cbn [andb]; [| split; [apply beliefs_grow_refl | discriminate]].
  destruct (bool_decide_reflect (env ∈ orb_positions a)) as [Hin | Hout];
    cbn [negb].
  - split; [apply beliefs_grow_refl | auto].
  - split; [| intros _; simpl; apply elem_of_app; right; apply list_elem_of_singleton; reflexivity].
    unfold beliefs_grow. destruct a; simpl in *. repeat split; auto.
    + eexists; reflexivity.
    + exists []. rewrite app_nil_r. reflexivity.
    + intros Hnd. apply NoDup_app. repeat split; [exact Hnd | | apply NoDup_singleton].
      intros q Hq Hq'. apply list_elem_of_singleton in Hq' as ->. auto.
Qed.

Lemma learn_hole a env (b : bool) :
  let a1 := if b && negb (bool_decide (env ∈ hole_positions a))
            then set_hole_positions (hole_positions a ++ [env]) a else a in
  beliefs_grow a a1 /\ (b = true -> env ∈ hole_positions a1).
Proof.
  destruct b; cbn [andb]; [| split; [apply beliefs_grow_refl | discriminate]].
  destruct (bool_decide_reflect (env ∈ hole_positions a)) as [Hin | Hout];
    cbn [negb].
  - split; [apply beliefs_grow_refl | auto].
  - split; [| intros _; simpl; apply elem_of_app; right; apply list_elem_of_singleton; reflexivity].
    unfold beliefs_grow. destruct a; simpl in *. repeat split; auto.
    + exists []. rewrite app_nil_r. reflexivity.
    + eexists; reflexivity.
    + intros Hnd. apply NoDup_app. repeat split; [exact Hnd | | apply NoDup_singleton].
      intros q Hq Hq'. apply list_elem_of_singleton in Hq' as ->. auto.
Qed.

Lemma learn_filled a env (b : bool) :
  let a1 := if b
            then set_filled_hole_positions (filled_hole_positions a ∪ {[env]}) a
            else a in
  beliefs_grow a a1 /\ (b = true -> env ∈ filled_hole_positions a1).
Proof.
  destruct b; [| split; [apply beliefs_grow_refl | discriminate]].
  split; [| intros _; simpl; set_solver].
  unfold beliefs_grow. destruct a; simpl in *. repeat split; auto.
  - exists []. rewrite app_nil_r. reflexivity.
  - exists []. rewrite app_nil_r. reflexivity.
  - set_solver.
Qed.

Lemma update_item_grows a env cell :
  beliefs_grow a (update_item a env cell) /\
  (contains ORB cell = true -> env ∈ orb_positions (update_item a env cell)) /\
  (contains HOLE cell = true -> env ∈ hole_positions (update_item a env cell)) /\
  (contains FILLED_HOLE cell = true ->
   env ∈ filled_hole_positions (update_item a env cell)).
Proof.
  unfold update_item.
  destruct (learn_orb a env (contains ORB cell)) as (Hg1 & Ho).
  set (a1 := if contains ORB cell && negb (bool_decide (env ∈ orb_positions a))
             then set_orb_positions (orb_positions a ++ [env]) a else a) in *.
  destruct (learn_hole a1 env (contains HOLE cell)) as (Hg2 & Hh).
  set (a2 := if contains HOLE cell && negb (bool_decide (env ∈ hole_positions a1))
             then set_hole_positions (hole_positions a1 ++ [env]) a1 else a1) in *.
  destruct (learn_filled a2 env (contains FILLED_HOLE cell)) as (Hg3 & Hf).
  set (a3 := if contains FILLED_HOLE cell
             then set_filled_hole_positions (filled_hole_positions a2 ∪ {[env]}) a2
             else a2) in *.
  split; [eapply beliefs_grow_trans; [exact Hg1 |];
          eapply beliefs_grow_trans; eauto |].
  pose proof (beliefs_grow_trans _ _ _ Hg2 Hg3) as ([l Hl] & _).
  destruct Hg3 as (_ & [m Hm] & _).
  repeat split; intros Hc.
  - rewrite Hl. apply elem_of_app. left. auto.
  - rewrite Hm. apply elem_of_app. left. auto.
  - auto.
Qed.

Lemma scan_row_grows row : forall a tlx y j0,
  beliefs_grow a (scan_row a tlx y j0 row) /\
  forall j cell, row !! j = Some cell ->
    let env := (tlx + Z.of_nat (j0 + j), y) in
    (contains ORB cell = true -> env ∈ orb_positions (scan_row a tlx y j0 row)) /\
    (contains HOLE cell = true -> env ∈ hole_positions (scan_row a tlx y j0 row)) /\
    (contains FILLED_HOLE cell = true ->
     env ∈ filled_hole_positions (scan_row a tlx y j0 row)).
Proof.
  induction row as [| c row IH]; intros a tlx y j0.
  - split; [apply beliefs_grow_refl | intros j cell Hj; inversion Hj].
  - cbn [scan_row].
    destruct (update_item_grows a (tlx + Z.of_nat j0, y) c) as (Hg & Ho & Hh & Hf).
    destruct (IH (update_item a (tlx + Z.of_nat j0, y) c) tlx y (S j0))
      as (Hg' & Hrest).
    split; [eapply beliefs_grow_trans; eauto |].
    intros [| j] cell Hj.
    + simpl in Hj. injection Hj as <-.
      replace (j0 + 0)%nat with j0 by lia.
      destruct Hg' as ([l Hl] & [m Hm] & Hsub & _).
      repeat split; intros Hc.
      * rewrite Hl. apply elem_of_app. left. auto.
      * rewrite Hm. apply elem_of_app. left. auto.
      * exact (proj1 (elem_of_subseteq _ _) Hsub _ (Hf Hc)).
    + simpl in Hj. replace (j0 + S j)%nat with (S j0 + j)%nat by lia.
      apply Hrest, Hj.
Qed.

Lemma scan_rows_grows rows : forall a tlx tly i0,
  beliefs_grow a (scan_rows a tlx tly i0 rows) /\
  forall i j row cell, rows !! i = Some row -> row !! j = Some cell ->
    let env := (tlx + Z.of_nat j, tly + Z.of_nat (i0 + i)) in
    (contains ORB cell = true ->
     env ∈ orb_positions (scan_rows a tlx tly i0 rows)) /\
    (contains HOLE cell = true ->
     env ∈ hole_positions (scan_rows a tlx tly i0 rows)) /\
    (contains FILLED_HOLE cell = true ->
     env ∈ filled_hole_positions (scan_rows a tlx tly i0 rows)).
Proof.
  induction rows as [| r rows IH]; intros a tlx tly i0.
  - split; [apply beliefs_grow_refl | intros i j row cell Hi; inversion Hi].
  - cbn [scan_rows].
    destruct (scan_row_grows r a tlx (tly + Z.of_nat i0) 0) as (Hg & Hrow).
    destruct (IH (scan_row a tlx (tly + Z.of_nat i0) 0 r) tlx tly (S i0))
      as (Hg' & Hrest).
    split; [eapply beliefs_grow_trans; eauto |].
    intros [| i] j row cell Hi Hj.
    + simpl in Hi. injection Hi as <-.
      replace (i0 + 0)%nat with i0 by lia.
      destruct (Hrow j cell Hj) as (Ho & Hh & Hf). simpl in Ho, Hh, Hf.
      destruct Hg' as ([l Hl] & [m Hm] & Hsub & _).
      repeat split; intros Hc.
      * rewrite Hl. apply elem_of_app. left. auto.
      * rewrite Hm. apply elem_of_app. left. auto.
      * exact (proj1 (elem_of_subseteq _ _) Hsub _ (Hf Hc)).
    + simpl in Hi. replace (i0 + S i)%nat with (S i0 + i)%nat by lia.
      apply (Hrest i j row cell Hi Hj).
Qed.

Lemma update_item_positions_grows_at (a : Agent) i j row cell :
  visibility a !! i = Some row -> row !! j = Some cell ->
  let env := ((position a).1 - field_of_view a / 2 + Z.of_nat j,
              (position a).2 - field_of_view a / 2 + Z.of_nat i) in
  (contains ORB cell = true -> env ∈ orb_positions (update_item_positions a)) /\
  (contains HOLE cell = true -> env ∈ hole_positions (update_item_positions a)) /\
  (contains FILLED_HOLE cell = true ->
   env ∈ filled_hole_positions (update_item_positions a)).
Proof.
  intros Hi Hj. unfold update_item_positions.
  destruct (scan_rows_grows (visibility a) a
              ((position a).1 - field_of_view a / 2)
              ((position a).2 - field_of_view a / 2) 0) as (_ & Hall).
  apply (Hall i j row cell Hi Hj).
Qed.

(** [update_item_positions] only learns: both belief lists keep their
    entries in order and are extended at the end without duplicates, the
    set of filled holes grows, nothing else of the agent changes, and
    afterwards every cell of the view that holds an Orb, Hole or FilledHole
    token is known under its absolute position. *)
Theorem update_item_positions_learns (a : Agent) :
  let a' := update_item_positions a in
  beliefs_grow a a' /\
  forall i j row cell,
    visibility a !! i = Some row -> row !! j = Some cell ->
    let env := ((position a).1 - field_of_view a / 2 + Z.of_nat j,
                (position a).2 - field_of_view a / 2 + Z.of_nat i) in
    (contains ORB cell = true -> env ∈ orb_positions a') /\
    (contains HOLE cell = true -> env ∈ hole_positions a') /\
    (contains FILLED_HOLE cell = true -> env ∈ filled_hole_positions a').
Proof.
  unfold update_item_positions.
  destruct (scan_rows_grows (visibility a) a
              ((position a).1 - field_of_view a / 2)
              ((position a).2 - field_of_view a / 2) 0) as (Hg & Hall).
  split; [exact Hg |].
  intros i j row cell Hi Hj. apply (Hall i j row cell Hi Hj).
Qed.

End Perception.

Lemma update_item_positions_learns_witness :
  let a := mkAgent "a1" (1, 1) 3
             [["empty"; "orb"; "empty"]; ["hole"; "empty"; "empty"];
              ["empty"; "empty"; "orb"]]
             {[(1, 1)]} UP 5 false [] [(1, 0)] None false ∅ in
  (2, 2) ∈ orb_positions (update_item_positions (consts := sample_consts) a).
Proof.
  intros a.
  apply (proj1 (proj2 (update_item_positions_learns (consts := sample_consts) a)
                  2%nat 2%nat ["empty"; "empty"; "orb"] "orb" eq_refl eq_refl)).
  reflexivity.
Defined.

(** ** The random fallback target *)

Section Fallback.
Context {rng : Random}.

(** The position the [k]-th pass of the loop of [find_random_position]
    draws, when the loop starts with [t] draws already made. *)
Definition random_draw (env : Playground) (t k : nat) : Position :=
  (rand_randint (t + 2 * k) 0 (xAxis env - 1),
   rand_randint (S (t + 2 * k)) 0 (yAxis env - 1)).

Lemma find_random_position_step fuel a env t :
  0 < xAxis env -> 0 < yAxis env ->
  find_random_position (S fuel) a env t =
  if decide (random_draw env t 0 ∈ visited_cell a)
  then find_random_position fuel a env (S (S t))
  else Ok (random_draw env t 0, S (S t)).
Proof.
  intros Hx Hy. cbn [find_random_position]. unfold randint, random_draw.
  destruct (Z.ltb_spec (xAxis env - 1) 0); [lia |].
  destruct (Z.ltb_spec (yAxis env - 1) 0); [lia |].
  rewrite !bind_Ok. replace (t + 2 * 0)%nat with t by lia. reflexivity.
Qed.

Lemma random_draw_shift env t k :
  random_draw env (S (S t)) k = random_draw env t (S k).
Proof.
  unfold random_draw. replace (S (S t) + 2 * k)%nat with (t + 2 * S k)%nat by lia.
  reflexivity.
Qed.

Lemma find_random_position_empty_side a env fuel t :
  xAxis env <= 0 \/ yAxis env <= 0 ->
  find_random_position (S fuel) a env t = Raise ValueError.
Proof.
  intros Hdim. cbn [find_random_position]. unfold randint.
  destruct (Z.ltb_spec (xAxis env - 1) 0); [reflexivity |].
  rewrite bind_Ok.
  destruct (Z.ltb_spec (yAxis env - 1) 0); [reflexivity | lia].
Qed.

Lemma find_random_position_finds a env : forall k fuel t,
  0 < xAxis env -> 0 < yAxis env ->
  (forall i, (i < k)%nat -> random_draw env t i ∈ visited_cell a) ->
  random_draw env t k ∉ visited_cell a ->
  (k < fuel)%nat ->
  find_random_position fuel a env t
  = Ok (random_draw env t k, (t + 2 * S k)%nat).
Proof.
  induction k as [| k IH]; intros fuel t Hx Hy Hbefore Hfree Hfuel.
  - destruct fuel as [| fuel]; [lia |].
    rewrite find_random_position_step by assumption.
    rewrite decide_False by exact Hfree.
    replace (t + 2 * 1)%nat with (S (S t)) by lia. reflexivity.
  - destruct fuel as [| fuel]; [lia |].
    rewrite find_random_position_step by assumption.
    rewrite decide_True by (apply Hbefore; lia).
    rewrite (IH fuel (S (S t))); try assumption; try lia.
    + rewrite random_draw_shift. f_equal. f_equal. lia.
    + intros i Hi. rewrite random_draw_shift. apply Hbefore. lia.
    + rewrite random_draw_shift. exact Hfree.
Qed.

Lemma find_random_position_exhausts a env : forall fuel t,
  0 < xAxis env -> 0 < yAxis env ->
  (forall i, (i < fuel)%nat -> random_draw env t i ∈ visited_cell a) ->
  find_random_position fuel a env t = OutOfFuel.
Proof.
  induction fuel as [| fuel IH]; intros t Hx Hy Hall; [reflexivity |].
  rewrite find_random_position_step by assumption.
  rewrite decide_True by (apply Hall; lia).
  apply IH; try assumption.
  intros i Hi. rewrite random_draw_shift. apply Hall. lia.
Qed.

(** [find_random_position] never returns a visited position. On a grid with
    a side of 0 or less [random.randint] raises ValueError. Otherwise the
    loop returns the first draw that is not in the visited set, as soon as
    the iteration budget reaches it, and runs on for as long as every draw
    is a visited position. *)
Theorem find_random_position_first_unvisited (a : Agent) (env : Playground) :
  (forall fuel t p t',
     find_random_position fuel a env t = Ok (p, t') -> p ∉ visited_cell a) /\
  (forall fuel t,
     xAxis env <= 0 \/ yAxis env <= 0 ->
     find_random_position (S fuel) a env t = Raise ValueError) /\
  (forall k fuel t,
     0 < xAxis env -> 0 < yAxis env ->
     (forall i, (i < k)%nat -> random_draw env t i ∈ visited_cell a) ->
     random_draw env t k ∉ visited_cell a ->
     (k < fuel)%nat ->
     find_random_position fuel a env t
     = Ok (random_draw env t k, (t + 2 * S k)%nat)) /\
  (forall fuel t,
     0 < xAxis env -> 0 < yAxis env ->
     (forall i, (i < fuel)%nat -> random_draw env t i ∈ visited_cell a) ->
     find_random_position fuel a env t = OutOfFuel).
Proof.
  split; [| split; [| split]].
  - induction fuel as [| fuel IH]; intros t p t'; [discriminate |].
    cbn [find_random_position].
    destruct (randint t 0 (xAxis env - 1)) as [rx| |]; try discriminate.
    rewrite bind_Ok.
    destruct (randint (S t) 0 (yAxis env - 1)) as [ry| |]; try discriminate.
    rewrite bind_Ok.
    destruct (decide ((rx, ry) ∈ visited_cell a)) as [Hin | Hout].
    + apply IH.
    + intros [= <- _]. exact Hout.
  - intros fuel t Hdim. cbn [find_random_position]. unfold randint.
    destruct (Z.ltb_spec (xAxis env - 1) 0); [reflexivity |].
    rewrite bind_Ok.
    destruct (Z.ltb_spec (yAxis env - 1) 0); [reflexivity | lia].
  - induction k as [| k IH]; intros fuel t Hx Hy Hbefore Hfree Hfuel.
    + destruct fuel as [| fuel]; [lia |].
      rewrite find_random_position_step by assumption.
      rewrite decide_False by exact Hfree.
      replace (t + 2 * 1)%nat with (S (S t)) by lia. reflexivity.
    + destruct fuel as [| fuel]; [lia |].
      rewrite find_random_position_step by assumption.
      rewrite decide_True by (apply Hbefore; lia).
      rewrite (IH fuel (S (S t))); try assumption; try lia.
      * rewrite random_draw_shift. f_equal. f_equal. lia.
      * intros i Hi. rewrite random_draw_shift. apply Hbefore. lia.
      * rewrite random_draw_shift. exact Hfree.
  - induction fuel as [| fuel IH]; intros t Hx Hy Hall; [reflexivity |].
    rewrite find_random_position_step by assumption.
    rewrite decide_True by (apply Hall; lia).
    apply IH; try assumption.
    intros i Hi. rewrite random_draw_shift. apply Hall. lia.
Qed.

(** [update_target] with nothing known to go for (the belief list in use
    is empty). An agent that already follows a random target is returned as
    it is. An agent without a target gets, as soon as the iteration budget
    reaches it, the first drawn position that is not a visited one, and is
    flagged as following a random target, nothing else of the agent
    changing; on a grid with a side of 0 or less the call raises ValueError;
    and it does not return for as long as every draw is a visited
    position. *)
Theorem update_target_fallback (fuel : nat) (a : Agent) (env : Playground)
    (t : nat) :
  (if has_ball a then hole_positions a else orb_positions a) = [] ->
  (is_a_random_target a = true -> update_target fuel a env t = Ok (a, t)) /\
  (is_a_random_target a = false -> target_position a = None ->
   (forall k,
      0 < xAxis env -> 0 < yAxis env ->
      (forall i, (i < k)%nat -> random_draw env t i ∈ visited_cell a) ->
      random_draw env t k ∉ visited_cell a ->
      (k < fuel)%nat ->
      update_target fuel a env t
      = Ok (set_target (Some (random_draw env t k)) true a, (t + 2 * S k)%nat)) /\
   (xAxis env <= 0 \/ yAxis env <= 0 -> (0 < fuel)%nat ->
    update_target fuel a env t = Raise ValueError) /\
   (0 < xAxis env -> 0 < yAxis env ->
    (forall i, (i < fuel)%nat -> random_draw env t i ∈ visited_cell a) ->
    update_target fuel a env t = OutOfFuel)).
Proof.
  intros Hempty. unfold update_target. rewrite Hempty.
  change ((0 <? length (@nil Position))%nat) with false. cbv iota.
  split.
  - intros Hrand. rewrite Hrand.
    destruct (bool_decide _); reflexivity.
  - intros Hrand Hnone. rewrite Hrand, Hnone.
    rewrite bool_decide_eq_false_2 by auto. cbn [andb negb].
    split; [| split].
    + intros k Hx Hy Hbefore Hfree Hfuel.
      rewrite (find_random_position_finds a env k fuel t) by assumption.
      reflexivity.
    + intros Hdim Hfuel. destruct fuel as [| fuel]; [lia |].
      rewrite find_random_position_empty_side by assumption. reflexivity.
    + intros Hx Hy Hall.
      rewrite find_random_position_exhausts by assumption. reflexivity.
Qed.

End Fallback.

Lemma find_random_position_first_unvisited_witness :
  let a := mkAgent "a1" (0, 0) 3 [] {[(0, 0)]} UP 5 false [] [] None false ∅ in
  let env := mkPlayground 2 2 [] ∅ 0 0 ∅ 3 in
  find_random_position (rng := sample_random) 1 a env 0 = Ok ((1, 1), 2%nat).
Proof.
  intros a env.
  apply (proj1 (proj2 (proj2
           (find_random_position_first_unvisited (rng := sample_random) a env)))
           0%nat 1%nat 0%nat); try (simpl; lia); try (intros i Hi; lia).
  intros Hin.
  change (random_draw (rng := sample_random) env 0 0
          ∈ ({[(0, 0)]} : gset Position)) in Hin.
  apply elem_of_singleton in Hin. discriminate Hin.
Defined.

Lemma update_target_fallback_witness :
  let a := mkAgent "a1" (0, 0) 3 [] {[(0, 0)]} UP 5 false [] [] None false ∅ in
  let env := mkPlayground 2 2 [] ∅ 0 0 ∅ 3 in
  update_target (rng := sample_random) 1 a env 0
  = Ok (set_target (Some (1, 1)) true a, 2%nat).
Proof.
  intros a env.
  apply (proj1 (proj2 (update_target_fallback (rng := sample_random) 1 a env 0
                         eq_refl) eq_refl eq_refl) 0%nat);
    try (simpl; lia); try (intros i Hi; lia).
  intros Hin.
  change (random_draw (rng := sample_random) env 0 0
          ∈ ({[(0, 0)]} : gset Position)) in Hin.
  apply elem_of_singleton in Hin. discriminate Hin.
Defined.

(** ** Picking up and putting down *)

Section Carrying.
Context {consts : Consts} {rng : Random} {helpers : Helpers}.

Lemma pick_orb_false pg p pg' :
  pick_orb pg p = Ok (false, pg') -> pg' = pg.
Proof.
  unfold pick_orb.
  destruct (negb (is_valid_position pg (Some p))); [intros [= <-]; reflexivity |].
  destruct (get_cell_state pg p) as [c| |]; try discriminate.
  rewrite bind_Ok.
  destruct (negb (contains ORB c)); [intros [= <-]; reflexivity |].
  destruct p as [x y].
  destruct (grid_write (grid pg) y x _) as [g| |]; try discriminate.
  rewrite bind_Ok.
  destruct (set_remove (x, y) (orb_registry pg)); discriminate.
Qed.

Lemma pick_orb_true pg p pg' :
  pick_orb pg p = Ok (true, pg') ->
  p ∈ orb_registry pg /\
  orb_registry pg' = orb_registry pg ∖ {[p]} /\
  exists c, get_cell_state pg p = Ok c /\ contains ORB c = true /\
            get_cell_state pg' p = Ok (replace ORB EMPTY c).
Proof.
  unfold pick_orb.
  destruct (negb (is_valid_position pg (Some p))); [discriminate |].
  destruct (get_cell_state pg p) as [c| |] eqn:Hc; try discriminate.
  rewrite bind_Ok.
  destruct (contains ORB c) eqn:Horb; cbn [negb]; [| discriminate].
  destruct p as [x y].
  destruct (grid_write (grid pg) y x _) as [g| |] eqn:Hw; try discriminate.
  rewrite bind_Ok. unfold set_remove.
  destruct (decide ((x, y) ∈ orb_registry pg)) as [Hin | Hout]; [| discriminate].
  rewrite bind_Ok. intros [= <-].
  split; [exact Hin |]. split; [reflexivity |].
  exists c. split; [reflexivity |]. split; [exact Horb |].
  simpl. eapply grid_write_read_back; eauto.
Qed.

Lemma take_ball_false a env a' env' :
  take_ball a env = Ok (false, a', env') -> a' = a /\ env' = env.
Proof.
  unfold take_ball. destruct (has_ball a); [intros [= <- <-]; auto |].
  destruct (pick_orb env (position a)) as [[picked env1]| |] eqn:Hpick;
    try discriminate.
  rewrite bind_Ok. destruct picked.
  - destruct (list_remove _ _); discriminate.
  - intros [= <- <-]. split; [reflexivity |].
    eapply pick_orb_false; eauto.
Qed.

Lemma take_ball_true a env a' env' :
  take_ball a env = Ok (true, a', env') ->
  has_ball a = false /\ has_ball a' = true /\
  position a ∈ orb_registry env /\
  orb_registry env' = orb_registry env ∖ {[position a]} /\
  list_remove (position a) (orb_positions a) = Ok (orb_positions a') /\
  a' = set_orb_positions (orb_positions a') (set_has_ball true a).
Proof.
  unfold take_ball. destruct (has_ball a) eqn:Hball; [discriminate |].
  destruct (pick_orb env (position a)) as [[picked env1]| |] eqn:Hpick;
    try discriminate.
  rewrite bind_Ok. destruct picked; [| discriminate].
  destruct (list_remove (position a) (orb_positions a)) as [l| |] eqn:Hrm;
    try discriminate.
  rewrite bind_Ok. intros [= <- <-].
  apply pick_orb_true in Hpick as (Hin & Hreg & _).
  repeat split; auto.
Qed.

(** [take_ball]: an agent that already carries gets False and nothing
    changes, as with every other False. With True the agent was empty-handed
    and now carries, its position was in the orb registry and has left it,
    and its belief list has lost the first entry equal to its position,
    nothing else of the agent having changed. A pick-up at a position the
    agent does not list raises ValueError. *)
Theorem take_ball_cases (a : Agent) (env : Playground) :
  (has_ball a = true -> take_ball a env = Ok (false, a, env)) /\
  (forall a' env', take_ball a env = Ok (false, a', env') -> a' = a /\ env' = env) /\
  (forall a' env',
     take_ball a env = Ok (true, a', env') ->
     has_ball a = false /\ has_ball a' = true /\
     position a ∈ orb_registry env /\
     orb_registry env' = orb_registry env ∖ {[position a]} /\
     list_remove (position a) (orb_positions a) = Ok (orb_positions a') /\
     a' = set_orb_positions (orb_positions a') (set_has_ball true a)) /\
  (forall env',
     has_ball a = false -> pick_orb env (position a) = Ok (true, env') ->
     position a ∉ orb_positions a ->
     take_ball a env = Raise ValueError).
Proof.
  unfold take_ball. split; [| split; [| split]].
  - intros ->. reflexivity.
  - intros a' env'. apply take_ball_false.
  - intros a' env'. apply take_ball_true.
  - intros env' Hball Hpick Hout. rewrite Hball, Hpick, bind_Ok.
    assert (Hrm : list_remove (position a) (orb_positions a) = Raise ValueError).
    { induction (orb_positions a) as [| q l IH]; [reflexivity |].
      simpl. rewrite decide_False.
      - rewrite IH; [reflexivity |]. intros Hq. apply Hout. right. exact Hq.
      - intros ->. apply Hout. left. }
    rewrite Hrm. reflexivity.
Qed.

Lemma place_orb_false pg p a t pg' t' :
  place_orb pg p a t = Ok (false, pg', t') -> pg' = pg /\ t' = t.
Proof.
  unfold place_orb.
  destruct (negb (is_valid_position pg (Some p))); [intros [= <- <-]; auto |].
  destruct (negb (has_ball a)); [intros [= <- <-]; auto |].
  destruct (get_cell_state pg p) as [c| |]; try discriminate.
  rewrite bind_Ok.
  destruct (negb (contains HOLE c)); [intros [= <- <-]; auto |].
  destruct p as [x y].
  destruct (grid_write (grid pg) y x _) as [g| |]; try discriminate.
  rewrite bind_Ok.
  destruct (switch_orb_positions (set_grid g pg) t) as [[pg2 t2]| |]; discriminate.
Qed.

Lemma place_orb_true pg p a t pg' t' :
  place_orb pg p a t = Ok (true, pg', t') ->
  is_valid_position pg (Some p) = true /\
  exists c, get_cell_state pg p = Ok c /\ contains HOLE c = true.
Proof.
  unfold place_orb.
  destruct (is_valid_position pg (Some p)); cbn [negb]; [| discriminate].
  destruct (negb (has_ball a)); [discriminate |].
  destruct (get_cell_state pg p) as [c| |] eqn:Hc; try discriminate.
  rewrite bind_Ok.
  destruct (contains HOLE c) eqn:Hhole; cbn [negb]; [| discriminate].
  intros _. split; [reflexivity |]. exists c. split; [reflexivity | exact Hhole].
Qed.

Lemma put_ball_in_hole_false a env t a' env' t' :
  put_ball_in_hole a env t = Ok (false, a', env', t') ->
  a' = a /\ env' = env /\ t' = t.
Proof.
  unfold put_ball_in_hole. destruct (has_ball a); cbn [negb];
    [| intros [= <- <- <-]; auto].
  destruct (place_orb env (position a) a t) as [[[placed env1] t1]| |] eqn:Hplace;
    try discriminate.
  rewrite bind_Ok. destruct placed.
  - destruct (list_remove _ _); discriminate.
  - intros [= <- <- <-]. split; [reflexivity |].
    eapply place_orb_false; eauto.
Qed.

Lemma put_ball_in_hole_true a env t a' env' t' :
  put_ball_in_hole a env t = Ok (true, a', env', t') ->
  has_ball a = true /\ has_ball a' = false /\
  is_valid_position env (Some (position a)) = true /\
  (exists c, get_cell_state env (position a) = Ok c /\ contains HOLE c = true) /\
  list_remove (position a) (hole_positions a) = Ok (hole_positions a') /\
  a' = set_hole_positions (hole_positions a') (set_has_ball false a).
Proof.
  unfold put_ball_in_hole. destruct (has_ball a) eqn:Hball; cbn [negb];
    [| discriminate].
  destruct (place_orb env (position a) a t) as [[[placed env1] t1]| |] eqn:Hplace;
    try discriminate.
  rewrite bind_Ok. destruct placed; [| discriminate].
  destruct (list_remove (position a) (hole_positions a)) as [l| |] eqn:Hrm;
    try discriminate.
  rewrite bind_Ok. intros [= <- <- <-].
  apply place_orb_true in Hplace as (Hvalid & Hcell).
  repeat split; auto.
Qed.

(** [put_ball_in_hole]: an empty-handed agent gets False and nothing
    changes, no draw included, as with every other False. With True the
    agent carried and no longer does, the cell it stands on held the Hole
    token, and its belief list has lost the first entry equal to its
    position, nothing else of the agent having changed. *)
Theorem put_ball_in_hole_cases (a : Agent) (env : Playground) (t : nat) :
  (has_ball a = false -> put_ball_in_hole a env t = Ok (false, a, env, t)) /\
  (forall a' env' t',
     put_ball_in_hole a env t = Ok (false, a', env', t') ->
     a' = a /\ env' = env /\ t' = t) /\
  (forall a' env' t',
     put_ball_in_hole a env t = Ok (true, a', env', t') ->
     has_ball a = true /\ has_ball a' = false /\
     is_valid_position env (Some (position a)) = true /\
     (exists c, get_cell_state env (position a) = Ok c /\ contains HOLE c = true) /\
     list_remove (position a) (hole_positions a) = Ok (hole_positions a') /\
     a' = set_hole_positions (hole_positions a') (set_has_ball false a)).
Proof.
  unfold put_ball_in_hole. split; [| split].
  - intros ->. reflexivity.
  - intros a' env' t'. apply put_ball_in_hole_false.
  - intros a' env' t'. apply put_ball_in_hole_true.
Qed.

End Carrying.

Lemma take_ball_cases_witness :
  let a := mkAgent "a1" (0, 0) 3 [] {[(0, 0)]} UP 5 true [] [(0, 0)] None false ∅ in
  let env := mkPlayground 2 2 [["orb"; "empty"]; ["empty"; "hole"]] ∅ 1 1 {[(0, 0)]} 3 in
  take_ball (consts := sample_consts) a env = Ok (false, a, env).
Proof.
  intros a env.
  apply (proj1 (take_ball_cases (consts := sample_consts) a env)). reflexivity.
Defined.

Lemma put_ball_in_hole_cases_witness :
  let a := mkAgent "a1" (1, 1) 3 [] {[(1, 1)]} UP 5 false [(1, 1)] [] None false ∅ in
  let env := mkPlayground 2 2 [["orb"; "empty"]; ["empty"; "hole"]] ∅ 1 1 {[(0, 0)]} 3 in
  put_ball_in_hole (consts := sample_consts) (rng := sample_random) a env 0
  = Ok (false, a, env, 0%nat).
Proof.
  intros a env.
  apply (proj1 (put_ball_in_hole_cases (consts := sample_consts)
                  (rng := sample_random) a env 0)). reflexivity.
Defined.

(** ** A step that moves *)

Section Step.
Context {consts : Consts} {helpers : Helpers}.

Lemma agent_enter_cell_true pg p agent pg' :
  agent_enter_cell pg p agent = Ok (true, pg') ->
  is_valid_position pg (Some p) = true /\
  exists c, get_cell_state pg p = Ok c /\
            get_cell_state pg' p = Ok (c +:+ "," +:+ get_label agent).
Proof.
  unfold agent_enter_cell.
  destruct (is_valid_position pg (Some p)) eqn:Hvalid; cbn [negb]; [| discriminate].
  destruct (get_cell_state pg p) as [c| |] eqn:Hc; try discriminate.
  rewrite bind_Ok. destruct p as [x y].
  destruct (agent_exit_cell pg agent) as [pg1| |]; try discriminate.
  rewrite bind_Ok.
  destruct (grid_write (grid pg1) y x _) as [g| |] eqn:Hw; try discriminate.
  rewrite bind_Ok. intros [= <-].
  split; [reflexivity |]. exists c. split; [reflexivity |].
  simpl. eapply grid_write_read_back; eauto.
Qed.

(** What a completed [take_step_forward] leaves behind. If the validity
    check accepts the forward position, the agent now stands there, the
    position is in its visited set, and the cell there reads as before the
    step with the agent's label appended. If the check refuses it, the agent
    stands where it stood. In both cases the visited set has only grown and
    nothing else but the battery has changed. *)
Theorem take_step_forward_moves (a : Agent) (env : Playground)
    (r : bool) (a' : Agent) (env' : Playground) :
  take_step_forward a env = Ok (r, a', env') ->
  let new_position := get_new_position (direction a) (position a) in
  (is_valid_position env (Some new_position) = true ->
   position a' = new_position /\
   visited_cell a' = visited_cell a ∪ {[new_position]} /\
   exists c, get_cell_state env new_position = Ok c /\
             get_cell_state env' new_position
             = Ok (c +:+ "," +:+ get_label a)) /\
  (is_valid_position env (Some new_position) = false ->
   position a' = position a /\ visited_cell a' = visited_cell a /\ env' = env) /\
  a' = set_visited_cell (visited_cell a')
         (set_position (position a') (set_battery (battery a - 1) a)).
Proof.
  intros Hstep new_position. unfold take_step_forward in Hstep.
  cbn [direction position set_battery] in Hstep. fold new_position in Hstep.
  destruct (agent_enter_cell env new_position (set_battery (battery a - 1) a))
    as [[entered env1]| |] eqn:Henter; try discriminate.
  rewrite bind_Ok in Hstep.
  destruct entered; injection Hstep as <- <- <-.
  - apply agent_enter_cell_true in Henter as (Hvalid & c & Hc & Hc').
    split; [| split].
    + intros _. split; [reflexivity |]. split; [reflexivity |].
      exists c. split; [exact Hc | exact Hc'].
    + intros Hinv. congruence.
    + destruct a; reflexivity.
  - apply agent_enter_cell_false in Henter as (Hinv & ->).
    split; [| split].
    + intros Hvalid. congruence.
    + intros _. repeat split.
    + destruct a; reflexivity.
Qed.

End Step.

Lemma take_step_forward_moves_witness :
  let a := mkAgent "a1" (0, 0) 3 [] {[(0, 0)]} RIGHT 5 false [] [] None false ∅ in
  let env := mkPlayground 2 2 [["empty,agent-a1"; "empty"]; ["empty"; "hole"]]
               ∅ 1 0 ∅ 3 in
  match take_step_forward (consts := sample_consts)
          (helpers := sample_helpers) a env with
  | Ok (_, a', env') =>
      position a' = (1, 0) /\
      get_cell_state env' (1, 0) = Ok "empty,agent-a1"
  | _ => False
  end.
Proof.
  intros a env.
  pose proof (take_step_forward_moves (consts := sample_consts)
                (helpers := sample_helpers) a env)
    as Hmoves.
  destruct (take_step_forward (consts := sample_consts)
              (helpers := sample_helpers) a env)
    as [[[r a'] env']| |] eqn:Heq.
  - destruct (proj1 (Hmoves r a' env' eq_refl) eq_refl)
      as (Hpos & _ & c & Hc & Hc').
    split; [exact Hpos |].
    injection Hc as <-. exact Hc'.
  - vm_compute in Heq. discriminate.
  - vm_compute in Heq. discriminate.
Defined.

(** ** What the operations cannot change in the playground *)

(** The lengths of the rows of the grid. *)
Definition grid_shape (pg : Playground) : list nat := length <$> grid pg.

(** [pg'] is [pg] after some operations of the playground: same
    dimensions, same shape of the grid, same start positions; the orb
    registry has not grown, and what it holds was there before or is a
    position the validity check accepts. *)
Definition evolves (pg pg' : Playground) : Prop :=
  xAxis pg' = xAxis pg /\
  yAxis pg' = yAxis pg /\
  grid_shape pg' = grid_shape pg /\
  agent_start_positions pg' = agent_start_positions pg /\
  (size (orb_registry pg') <= size (orb_registry pg))%nat /\
  (forall p, p ∈ orb_registry pg' ->
             p ∈ orb_registry pg \/ is_valid_position pg (Some p) = true).

Lemma is_valid_position_xAxis pg pg' p :
  xAxis pg' = xAxis pg -> is_valid_position pg' p = is_valid_position pg p.
Proof. intros Hx. unfold is_valid_position. rewrite Hx. reflexivity. Qed.

Lemma evolves_refl pg : evolves pg pg.
Proof. repeat split; auto. Qed.

Lemma evolves_trans pg1 pg2 pg3 :
  evolves pg1 pg2 -> evolves pg2 pg3 -> evolves pg1 pg3.
Proof.
  intros (Hx1 & Hy1 & Hs1 & Ha1 & Hn1 & Hv1) (Hx2 & Hy2 & Hs2 & Ha2 & Hn2 & Hv2).
  repeat split; try congruence; try lia.
  intros p Hp. destruct (Hv2 p Hp) as [Hin | Hvalid]; [auto |].
  right. rewrite <- (is_valid_position_xAxis pg1 pg2) by exact Hx1. exact Hvalid.
Qed.

Lemma evolves_set_grid pg g r c v :
  grid_write (grid pg) r c v = Ok g -> evolves pg (set_grid g pg).
Proof.
  intros Hw. repeat split; auto.
  unfold grid_shape. simpl. eapply grid_write_shape; eauto.
Qed.

Lemma size_move (s : gset Position) (x y : Position) :
  x ∈ s -> (size (s ∖ {[x]} ∪ {[y]}) <= size s)%nat.
Proof.
  intros Hx. rewrite size_union_alt.
  assert (H1 : size (s ∖ {[x]}) = (size s - 1)%nat).
  { rewrite size_difference by set_solver. rewrite size_singleton. reflexivity. }
  assert (H2 : (size (({[y]} : gset Position) ∖ (s ∖ {[x]})) <= 1)%nat).
  { rewrite <- (size_singleton (C := gset Position) y).
    apply subseteq_size. set_solver. }
  assert (H3 : (0 < size s)%nat).
  { destruct (decide (size s = 0%nat)) as [Hz | Hz]; [| lia].
    apply size_empty_iff in Hz. set_solver. }
  lia.
Qed.

Section Evolution.
Context {consts : Consts} {rng : Random} {helpers : Helpers}.

Lemma agent_exit_cell_evolves pg agent pg' :
  agent_exit_cell pg agent = Ok pg' -> evolves pg pg'.
Proof.
  intros Hexit.
  destruct (get_cell_state pg (position agent)) as [c| |] eqn:Hc;
    try (unfold agent_exit_cell in Hexit; rewrite Hc in Hexit; discriminate).
  rewrite (agent_exit_cell_string _ _ _ Hc) in Hexit.
  destruct (exit_string (get_label agent) c) as [s| |]; try discriminate.
  rewrite bind_Ok in Hexit.
  destruct (grid_write (grid pg) _ _ s) as [g| |] eqn:Hw; try discriminate.
  rewrite bind_Ok in Hexit. injection Hexit as <-.
  eapply evolves_set_grid; eauto.
Qed.

Lemma agent_enter_cell_evolves pg p agent ok pg' :
  agent_enter_cell pg p agent = Ok (ok, pg') -> evolves pg pg'.
Proof.
  unfold agent_enter_cell.
  destruct (negb (is_valid_position pg (Some p)));
    [intros [= _ <-]; apply evolves_refl |].
  destruct (get_cell_state pg p) as [c| |]; try discriminate.
  rewrite bind_Ok. destruct p as [x y].
  destruct (agent_exit_cell pg agent) as [pg1| |] eqn:Hexit; try discriminate.
  rewrite bind_Ok.
  destruct (grid_write (grid pg1) y x _) as [g| |] eqn:Hw; try discriminate.
  rewrite bind_Ok. intros [= _ <-].
  eapply evolves_trans; [eapply agent_exit_cell_evolves; eauto |].
  eapply evolves_set_grid; eauto.
Qed.

Lemma pick_orb_evolves pg p ok pg' :
  pick_orb pg p = Ok (ok, pg') -> evolves pg pg'.
Proof.
  unfold pick_orb.
  destruct (negb (is_valid_position pg (Some p)));
    [intros [= _ <-]; apply evolves_refl |].
  destruct (get_cell_state pg p) as [c| |]; try discriminate.
  rewrite bind_Ok.
  destruct (negb (contains ORB c)); [intros [= _ <-]; apply evolves_refl |].
  destruct p as [x y].
  destruct (grid_write (grid pg) y x _) as [g| |] eqn:Hw; try discriminate.
  rewrite bind_Ok. unfold set_remove.
  destruct (decide ((x, y) ∈ orb_registry pg)); [| discriminate].
  rewrite bind_Ok. intros [= _ <-].
  pose proof (evolves_set_grid _ _ _ _ _ Hw) as (Hx & Hy & Hs & Ha & _).
  repeat split; auto.
  - simpl. apply subseteq_size. set_solver.
  - simpl. intros q Hq. left. set_solver.
Qed.

Lemma switch_orb_step_evolves pg t orb pg' t' :
  switch_orb_step (pg, t) orb = Ok (pg', t') -> evolves pg pg'.
Proof.
  unfold switch_orb_step.
  destruct (negb (Qle_bool _ _)); [intros [= <- _]; apply evolves_refl |].
  destruct (is_valid_position pg (Some (orb_destination (rand_choice t) orb)))
    eqn:Hvalid; cbn [negb]; [| intros [= <- _]; apply evolves_refl].
  destruct orb as [xo yo].
  destruct (orb_destination (rand_choice t) (xo, yo)) as [xn yn].
  destruct (get_cell_state pg (xn, yn)) as [c| |]; try discriminate.
  rewrite bind_Ok.
  destruct (contains ORB c || contains FILLED_HOLE c);
    [intros [= <- _]; apply evolves_refl |].
  destruct (contains EMPTY c).
  - destruct (grid_read (grid pg) yo xo); try discriminate.
    rewrite bind_Ok.
    destruct (grid_write (grid pg) yo xo _) as [g1| |] eqn:Hw1; try discriminate.
    rewrite bind_Ok.
    destruct (grid_read g1 yn xn); try discriminate.
    rewrite bind_Ok.
    destruct (grid_write g1 yn xn _) as [g2| |] eqn:Hw2; try discriminate.
    rewrite bind_Ok. unfold set_remove.
    destruct (decide ((xo, yo) ∈ orb_registry pg)) as [Hin |]; [| discriminate].
    rewrite bind_Ok. intros [= <- _].
    repeat split; auto.
    + unfold grid_shape. simpl.
      rewrite (grid_write_shape _ _ _ _ _ Hw2). eapply grid_write_shape; eauto.
    + simpl. apply size_move, Hin.
    + simpl. intros q Hq. apply elem_of_union in Hq as [Hq | Hq].
      * left. set_solver.
      * apply elem_of_singleton in Hq as ->. right. exact Hvalid.
  - destruct (contains HOLE c); [| intros [= <- _]; apply evolves_refl].
    destruct (grid_read (grid pg) yo xo); try discriminate.
    rewrite bind_Ok.
    destruct (grid_write (grid pg) yo xo _) as [g1| |] eqn:Hw1; try discriminate.
    rewrite bind_Ok.
    destruct (grid_read g1 yn xn); try discriminate.
    rewrite bind_Ok.
    destruct (grid_write g1 yn xn _) as [g2| |] eqn:Hw2; try discriminate.
    rewrite bind_Ok. unfold set_remove.
    destruct (decide ((xo, yo) ∈ orb_registry pg)) as [Hin |]; [| discriminate].
    rewrite bind_Ok. intros [= <- _].
    repeat split; auto.
    + unfold grid_shape. simpl.
      rewrite (grid_write_shape _ _ _ _ _ Hw2). eapply grid_write_shape; eauto.
    + simpl. apply subseteq_size. set_solver.
    + simpl. intros q Hq. left. set_solver.
Qed.

Lemma for_loop_evolves (l : list Position) : forall pg t pg' t',
  for_loop switch_orb_step (pg, t) l = Ok (pg', t') -> evolves pg pg'.
Proof.
  induction l as [| orb l IH]; intros pg t pg' t'.
  - simpl. intros [= <- _]. apply evolves_refl.
  - change (for_loop switch_orb_step (pg, t) (orb :: l)) with
      (switch_orb_step (pg, t) orb ≫= fun st' => for_loop switch_orb_step st' l).
    destruct (switch_orb_step (pg, t) orb) as [[pg1 t1]| |] eqn:Hstep;
      try discriminate.
    rewrite bind_Ok. intros Hloop.
    eapply evolves_trans; [eapply switch_orb_step_evolves; eauto |].
    eapply IH; eauto.
Qed.

Lemma place_orb_evolves pg p a t ok pg' t' :
  place_orb pg p a t = Ok (ok, pg', t') -> evolves pg pg'.
Proof.
  unfold place_orb.
  destruct (negb (is_valid_position pg (Some p)));
    [intros [= _ <- _]; apply evolves_refl |].
  destruct (negb (has_ball a)); [intros [= _ <- _]; apply evolves_refl |].
  destruct (get_cell_state pg p) as [c| |]; try discriminate.
  rewrite bind_Ok.
  destruct (negb (contains HOLE c)); [intros [= _ <- _]; apply evolves_refl |].
  destruct p as [x y].
  destruct (grid_write (grid pg) y x _) as [g| |] eqn:Hw; try discriminate.
  rewrite bind_Ok.
  destruct (switch_orb_positions (set_grid g pg) t) as [[pg2 t2]| |] eqn:Hsw;
    try discriminate.
  rewrite bind_Ok. intros [= _ <- _].
  eapply evolves_trans; [eapply evolves_set_grid; eauto |].
  unfold switch_orb_positions in Hsw. eapply for_loop_evolves; eauto.
Qed.

End Evolution.

(** ** The grid never changes shape *)

Section Shape.
Context {consts : Consts} {rng : Random}.

Lemma evolves_shape pg pg' :
  evolves pg pg' ->
  xAxis pg' = xAxis pg /\ yAxis pg' = yAxis pg /\ grid_shape pg' = grid_shape pg.
Proof. intros (Hx & Hy & Hs & _). auto. Qed.

(** Every operation of the playground that returns leaves the dimensions
    and the length of every row of the grid as they were: the grid is
    written cell by cell and never resized. *)
Theorem playground_operations_keep_shape (pg : Playground) :
  let same pg' :=
    xAxis pg' = xAxis pg /\ yAxis pg' = yAxis pg /\
    grid_shape pg' = grid_shape pg in
  (forall agent ok pg', add_agent pg agent = Ok (ok, pg') -> same pg') /\
  (forall agent pg', agent_exit_cell pg agent = Ok pg' -> same pg') /\
  (forall p agent ok pg', agent_enter_cell pg p agent = Ok (ok, pg') -> same pg') /\
  (forall p ok pg', pick_orb pg p = Ok (ok, pg') -> same pg') /\
  (forall p agent t ok pg' t', place_orb pg p agent t = Ok (ok, pg', t') -> same pg') /\
  (forall t pg' t', switch_orb_positions pg t = Ok (pg', t') -> same pg').
Proof.
  intros same. unfold same. repeat split; intros.
  all: try (apply evolves_shape;
            first [ eapply agent_exit_cell_evolves; eassumption
                  | eapply agent_enter_cell_evolves; eassumption
                  | eapply pick_orb_evolves; eassumption
                  | eapply place_orb_evolves; eassumption
                  | eapply for_loop_evolves; eassumption ]).
  all: match goal with
       | H : add_agent _ _ = Ok _ |- _ =>
           unfold add_agent in H;
           destruct (decide _) in H; [injection H as _ <-; reflexivity |];
           destruct (position agent) as [x y];
           destruct (grid_write (grid pg) x y _) as [g| |] eqn:Hw;
             try discriminate;
           rewrite bind_Ok in H; injection H as _ <-;
           try reflexivity;
           unfold grid_shape; simpl; eapply grid_write_shape; eauto
       end.
Qed.

End Shape.

Lemma playground_operations_keep_shape_witness :
  let pg := mkPlayground 2 2 [["orb"; "empty"]; ["empty"; "hole"]] ∅ 1 1 {[(0, 0)]} 3 in
  match pick_orb (consts := sample_consts) pg (0, 0) with
  | Ok (_, pg') => grid_shape pg' = grid_shape pg
  | _ => False
  end.
Proof.
  intros pg.
  pose proof (proj1 (proj2 (proj2 (proj2
                (playground_operations_keep_shape (consts := sample_consts)
                   (rng := sample_random) pg)))) (0, 0)) as Hpick.
  destruct (pick_orb (consts := sample_consts) pg (0, 0))
    as [[ok pg']| |] eqn:Heq.
  - exact (proj2 (proj2 (Hpick ok pg' eq_refl))).
  - vm_compute in Heq. discriminate.
  - vm_compute in Heq. discriminate.
Defined.

(** ** Entering a cell and leaving it again *)

Section RoundTrip.
Context {consts : Consts}.

(** An agent that entered a cell [T,l1,..,ln] and then leaves it restores
    the cell's state, provided its label is a token that none of the cell's
    tokens contains. *)
Theorem enter_then_exit_restores (pg : Playground) (p : Position) (a : Agent)
    (pg1 : Playground) (T : string) (ls : list string) :
  agent_enter_cell pg p a = Ok (true, pg1) ->
  get_cell_state pg p = Ok (cell_of T ls) ->
  token (get_label a) -> token T -> contains (get_label a) T = false ->
  Forall token ls -> Forall (fun l => contains (get_label a) l = false) ls ->
  exists pg2,
    agent_exit_cell pg1 (set_position p a) = Ok pg2 /\
    get_cell_state pg2 p = Ok (cell_of T ls).
Proof.
  intros Henter Hc HL HT HLT Hls Habs.
  apply agent_enter_cell_true in Henter as (_ & c & Hc0 & Hc1).
  rewrite Hc in Hc0. injection Hc0 as <-.
  assert (Hcell : get_cell_state pg1 (position (set_position p a))
                  = Ok (cell_of T (ls ++ get_label (set_position p a) :: []))).
  { change (position (set_position p a)) with p.
    change (get_label (set_position p a)) with (get_label a).
    rewrite Hc1. f_equal. unfold cell_of.
    change (T :: ls ++ [get_label a]) with ((T :: ls) ++ [get_label a]).
    rewrite join_app by discriminate. reflexivity. }
  destruct (agent_exit_cell_result pg1 (set_position p a) _ (cell_of T (ls ++ []))
              Hcell) as (pg2 & Hexit & Hread).
  { apply exit_string_removes; auto. }
  exists pg2. split; [exact Hexit |].
  rewrite app_nil_r in Hread. exact Hread.
Qed.

End RoundTrip.

Lemma enter_then_exit_restores_witness :
  let a := mkAgent "a1" (0, 0) 3 [] {[(0, 0)]} RIGHT 5 false [] [] None false ∅ in
  let pg := mkPlayground 2 2 [["empty,agent-a1"; "hole,agent-b"]; ["empty"; "hole"]]
              ∅ 1 0 ∅ 3 in
  match agent_enter_cell (consts := sample_consts) pg (1, 0) a with
  | Ok (true, pg1) =>
      exists pg2,
        agent_exit_cell (consts := sample_consts) pg1 (set_position (1, 0) a) = Ok pg2 /\
        get_cell_state pg2 (1, 0) = Ok "hole,agent-b"
  | _ => False
  end.
Proof.
  intros a pg.
  pose proof (enter_then_exit_restores (consts := sample_consts) pg (1, 0) a)
    as Htrip.
  destruct (agent_enter_cell (consts := sample_consts) pg (1, 0) a)
    as [[[|] pg1]| |] eqn:Heq.
  - apply (Htrip pg1 "hole" ["agent-b"] eq_refl eq_refl).
    + split; [discriminate | reflexivity].
    + split; [discriminate | reflexivity].
    + reflexivity.
    + constructor; [split; [discriminate | reflexivity] | constructor].
    + constructor; [reflexivity | constructor].
  - vm_compute in Heq. discriminate.
  - vm_compute in Heq. discriminate.
  - vm_compute in Heq. discriminate.
Defined.

(** ** Creating and finding agents *)

(** [Controller.find_agent], and [Controller.get_agent_by_id], which runs
    the same loop over the controller's own roster. *)
Fixpoint find_agent (agents : list Agent) (id : string) : option Agent :=
  match agents with
  | [] => None
  | agent :: rest =>
      if String.eqb (agent_id agent) id then Some agent else find_agent rest id
  end.

Definition get_agent_by_id (c : Controller) (id : string) : option Agent :=
  find_agent (agents c) id.

(** [find_agent] returns the first agent of the list with the id asked for,
    and None exactly when no agent has it. *)
Theorem find_agent_first (l : list Agent) (id : string) :
  (forall a,
     find_agent l id = Some a <->
     exists l1 l2, l = l1 ++ a :: l2 /\ agent_id a = id /\
                   forall b, b ∈ l1 -> agent_id b <> id) /\
  (find_agent l id = None <-> forall b, b ∈ l -> agent_id b <> id).
Proof.
  induction l as [| x l [IHs IHn]].
  - split.
    + intros a. split; [discriminate |].
      intros (l1 & l2 & Heq & _). destruct l1; discriminate.
    + split; [intros _ b Hb; inversion Hb | reflexivity].
  - cbn [find_agent]. destruct (String.eqb_spec (agent_id x) id) as [Hid | Hne].
    + split.
      * intros a. split.
        -- intros [= <-]. exists [], l. repeat split; auto.
           intros b Hb. inversion Hb.
        -- intros (l1 & l2 & Heq & Ha & Hfirst).
           destruct l1 as [| y l1].
           ++ injection Heq as -> _. reflexivity.
           ++ injection Heq as -> _. exfalso. apply (Hfirst y); [left | exact Hid].
      * split; [discriminate |].
        intros Hall. exfalso. apply (Hall x); [left | exact Hid].
    + split.
      * intros a. rewrite IHs. split.
        -- intros (l1 & l2 & -> & Ha & Hfirst).
           exists (x :: l1), l2. repeat split; auto.
           intros b Hb. apply elem_of_cons in Hb as [-> | Hb]; auto.
        -- intros (l1 & l2 & Heq & Ha & Hfirst).
           destruct l1 as [| y l1].
           ++ injection Heq as -> _. congruence.
           ++ injection Heq as -> ->. exists l1, l2. repeat split; auto.
              intros b Hb. apply Hfirst. right. exact Hb.
      * rewrite IHn. split.
        -- intros Hall b Hb. apply elem_of_cons in Hb as [-> | Hb]; auto.
        -- intros Hall b Hb. apply Hall. right. exact Hb.
Qed.

Section Creation.
Context {consts : Consts}.

(** [Agent.__init__] with the default view: a field of view of 0 or less
    raises IndexError, because the label is written to the centre of an
    empty view. A field of view of 1 or more gives an agent facing up,
    empty-handed, with no beliefs and no target, whose visited set is its
    start position and whose view is [fov] rows with its label at the
    centre. *)
Theorem new_agent_field_of_view (id : string) (pos : Position) (fov bat : Z) :
  (fov <= 0 -> new_agent id pos fov None bat = Raise IndexError) /\
  (1 <= fov ->
   exists agent,
     new_agent id pos fov None bat = Ok agent /\
     agent_id agent = id /\ position agent = pos /\ battery agent = bat /\
     has_ball agent = false /\ direction agent = UP /\
     visited_cell agent = {[pos]} /\
     hole_positions agent = [] /\ orb_positions agent = [] /\
     target_position agent = None /\
     length (visibility agent) = Z.to_nat fov /\
     grid_read (visibility agent) (fov / 2) (fov / 2) = Ok (get_label agent)).
Proof.
  split.
  - intros Hfov. unfold new_agent. cbn [default].
    replace (Z.to_nat fov) with 0%nat by lia. cbn [replicate].
    unfold grid_write. rewrite py_getitem_out; [reflexivity |].
    cbn [length]. lia.
  - intros Hfov.
    assert (Hhalf : 0 <= fov / 2 < fov).
    { split; [apply Z.div_pos; lia | apply Z.div_lt_upper_bound; lia]. }
    set (v0 := replicate (Z.to_nat fov) (replicate (Z.to_nat fov) EMPTY)).
    assert (Hread : grid_read v0 (fov / 2) (fov / 2) = Ok EMPTY).
    { apply grid_read_Ok.
      exists (Z.to_nat (fov / 2)), (Z.to_nat (fov / 2)),
             (replicate (Z.to_nat fov) EMPTY).
      unfold v0. rewrite !length_replicate.
      repeat split; try (apply py_index_nonneg; lia);
        apply lookup_replicate_2; lia. }
    destruct (grid_write_after_read v0 (fov / 2) (fov / 2) EMPTY
                (AGENT +:+ "-" +:+ id) Hread) as (v1 & Hw & Hr & Hlen & _).
    eexists. split.
    { unfold new_agent. cbn [default]. fold v0. rewrite Hw, bind_Ok. reflexivity. }
    repeat split.
    + simpl. rewrite Hlen. unfold v0. apply length_replicate.
    + simpl. exact Hr.
Qed.

End Creation.

Lemma new_agent_field_of_view_witness :
  new_agent (consts := sample_consts) "a1" (0, 0) 0 None 30 = Raise IndexError.
Proof.
  apply (proj1 (new_agent_field_of_view (consts := sample_consts) "a1" (0, 0) 0 30)).
  lia.
Defined.

Lemma find_agent_first_witness :
  let a := mkAgent "a1" (0, 0) 3 [] ∅ UP 5 false [] [] None false ∅ in
  let b := mkAgent "b2" (1, 0) 3 [] ∅ UP 5 false [] [] None false ∅ in
  find_agent [a; b; set_battery 9 b] "b2" = Some b.
Proof.
  intros a b.
  apply (proj1 (find_agent_first [a; b; set_battery 9 b] "b2")).
  exists [a], [set_battery 9 b]. repeat split.
  intros x Hx. apply list_elem_of_singleton in Hx as ->. discriminate.
Defined.

(** ** Playback of the recorded frames *)

Section Playback.
Context {Frame : Type}.

(** The frame-navigation methods of the controller act on the list of
    recorded frames and the index into it; each returns the new index with
    the frame it plots. *)
Definition draw_current (draws : list Frame) (draw_index : Z)
  : result (Z * Frame) :=
  frame ← py_getitem draws draw_index; Ok (draw_index, frame).

Definition draw_next (draws : list Frame) (draw_index : Z) : result (Z * Frame) :=
  let draw_index1 := draw_index + 1 in
  let draw_index2 := Z.min draw_index1 (Z.of_nat (length draws) - 1) in
  frame ← py_getitem draws draw_index2; Ok (draw_index2, frame).

Definition draw_previous (draws : list Frame) (draw_index : Z)
  : result (Z * Frame) :=
  let draw_index1 := draw_index - 1 in
  let draw_index2 := Z.max 0 draw_index1 in
  frame ← py_getitem draws draw_index2; Ok (draw_index2, frame).

Definition is_last_draw_index (draws : list Frame) (draw_index : Z) : bool :=
  draw_index =? Z.of_nat (length draws) - 1.

Lemma py_getitem_in_range (draws : list Frame) (i : Z) :
  0 <= i < Z.of_nat (length draws) ->
  exists frame, draws !! Z.to_nat i = Some frame /\ py_getitem draws i = Ok frame.
Proof.
  intros Hi.
  destruct (lookup_lt_is_Some_2 draws (Z.to_nat i)) as [frame Hf]; [lia |].
  exists frame. split; [exact Hf |].
  apply py_getitem_Ok. exists (Z.to_nat i).
  split; [apply py_index_nonneg; lia | exact Hf].
Qed.

(** With an index inside the recorded frames, [draw_next] and
    [draw_previous] plot the neighbouring frame and stop at the last and the
    first one, so the index stays inside; stepping forward and back returns
    to the frame one started from, unless that was the last frame; and
    [is_last_draw_index] holds after a step forward exactly when the step
    started on one of the last two frames. With no frame recorded both
    raise IndexError. *)
Theorem playback_stays_in_range (draws : list Frame) (draw_index : Z) :
  (0 <= draw_index < Z.of_nat (length draws) ->
   (exists frame,
      draw_next draws draw_index
      = Ok (Z.min (draw_index + 1) (Z.of_nat (length draws) - 1), frame) /\
      draws !! Z.to_nat (Z.min (draw_index + 1) (Z.of_nat (length draws) - 1))
      = Some frame) /\
   (exists frame,
      draw_previous draws draw_index = Ok (Z.max 0 (draw_index - 1), frame) /\
      draws !! Z.to_nat (Z.max 0 (draw_index - 1)) = Some frame) /\
   (forall i frame,
      draw_next draws draw_index = Ok (i, frame) ->
      0 <= i < Z.of_nat (length draws) /\
      (is_last_draw_index draws i = true <->
       Z.of_nat (length draws) - 2 <= draw_index) /\
      (draw_index + 1 < Z.of_nat (length draws) ->
       exists frame', draw_previous draws i = Ok (draw_index, frame') /\
                      draws !! Z.to_nat draw_index = Some frame'))) /\
  (draws = [] ->
   draw_next draws draw_index = Raise IndexError /\
   draw_previous draws draw_index = Raise IndexError /\
   draw_current draws draw_index = Raise IndexError).
Proof.
  split.
  - intros Hidx. split; [| split].
    + unfold draw_next.
      destruct (py_getitem_in_range draws
                  (Z.min (draw_index + 1) (Z.of_nat (length draws) - 1)))
        as (frame & Hf & Hget); [lia |].
      exists frame. rewrite Hget. auto.
    + unfold draw_previous.
      destruct (py_getitem_in_range draws (Z.max 0 (draw_index - 1)))
        as (frame & Hf & Hget); [lia |].
      exists frame. rewrite Hget. auto.
    + intros i frame. unfold draw_next.
      destruct (py_getitem draws _) as [f| |]; try discriminate.
      rewrite bind_Ok. intros [= <- <-].
      split; [lia |]. split.
      * unfold is_last_draw_index. rewrite Z.eqb_eq. lia.
      * intros Hnext. unfold draw_previous.
        replace (Z.max 0 (Z.min (draw_index + 1) (Z.of_nat (length draws) - 1) - 1))
          with draw_index by lia.
        destruct (py_getitem_in_range draws draw_index) as (f' & Hf' & Hget');
          [lia |].
        exists f'. rewrite Hget'. auto.
  - intros ->. unfold draw_next, draw_previous, draw_current.
    rewrite !py_getitem_out by (cbn [length]; lia). auto.
Qed.

End Playback.

Lemma playback_stays_in_range_witness :
  draw_next ["f0"; "f1"; "f2"] 2 = Ok (2, "f2").
Proof.
  destruct (proj1 (proj1 (playback_stays_in_range ["f0"; "f1"; "f2"] 2)
                     ltac:(simpl; lia))) as (frame & Hnext & Hframe).
  injection Hframe as <-. exact Hnext.
Defined.

(** ** Placing holes and orbs *)

(** [random.shuffle]: the order it leaves the list in is some permutation. *)
Class Shuffle := {
  shuffle : list Position -> list Position;
  shuffle_permutes : forall l, shuffle l ≡ₚ l
}.

Definition sample_shuffle : Shuffle :=
  {| shuffle := fun l => l; shuffle_permutes := fun l => Permutation_refl l |}.

Section Placement.
Context {consts : Consts} {shuffling : Shuffle}.

(** The list comprehension of [place_holes_and_orbs]. *)
Definition available_positions (pg : Playground) : list Position :=
  filter (fun p => p ∉ agent_start_positions pg)
    (i ← py_range 0 (xAxis pg); (fun j => (i, j)) <$> py_range 0 (yAxis pg)).

(** The first loop: at most [n] holes, as long as positions are left. *)
Fixpoint place_holes (n : nat) (available : list Position)
    (g : list (list string)) : result (list Position * list (list string)) :=
  match n with
  | O => Ok (available, g)
  | S n' =>
      match available with
      | [] => Ok (available, g)
      | (x, y) :: rest => g' ← grid_write g y x HOLE; place_holes n' rest g'
      end
  end.

(** The second loop: orbs, each entered in the registry. *)
Fixpoint place_orbs (n : nat) (available : list Position)
    (g : list (list string)) (reg : gset Position)
  : result (list Position * list (list string) * gset Position) :=
  match n with
  | O => Ok (available, g, reg)
  | S n' =>
      match available with
      | [] => Ok (available, g, reg)
      | (x, y) :: rest =>
          g' ← grid_write g y x ORB;
          place_orbs n' rest g' (reg ∪ {[(x, y)]})
      end
  end.

(** [Playground.place_holes_and_orbs]. *)
Definition place_holes_and_orbs (pg : Playground) : result Playground :=
  let available := shuffle (available_positions pg) in
  '(available1, g1) ← place_holes (Z.to_nat (num_holes pg)) available (grid pg);
  '(_, g2, reg) ← place_orbs (Z.to_nat (num_orbs pg)) available1 g1
                     (orb_registry pg);
  Ok (set_orb_registry reg (set_grid g2 pg)).

(** Writing one token to each position of a list, in order. *)
Fixpoint write_all (tok : string) (ps : list Position) (g : list (list string))
  : result (list (list string)) :=
  match ps with
  | [] => Ok g
  | (x, y) :: ps' => g' ← grid_write g y x tok; write_all tok ps' g'
  end.

Lemma place_holes_writes n : forall available g,
  place_holes n available g =
  (write_all HOLE (take n available) g ≫= fun g' => Ok (drop n available, g')).
Proof.
  induction n as [| n IH]; intros available g; [reflexivity |].
  destruct available as [| [x y] rest]; [reflexivity |].
  cbn [place_holes take drop write_all].
  destruct (grid_write g y x HOLE) as [g'| |]; try reflexivity.
  rewrite !bind_Ok. apply IH.
Qed.

Lemma place_orbs_writes n : forall available g reg,
  place_orbs n available g reg =
  (write_all ORB (take n available) g ≫= fun g' =>
   Ok (drop n available, g', reg ∪ list_to_set (take n available))).
Proof.
  assert (Hnil : forall (l : list Position) g reg,
            Ok (l, g, reg) = Ok (l, g, reg ∪ list_to_set (@nil Position))
            :> result (list Position * list (list string) * gset Position)).
  { intros l g reg. cbn [list_to_set]. rewrite (right_id_L ∅ (∪)). reflexivity. }
  induction n as [| n IH]; intros available g reg.
  - exact (Hnil available g reg).
  - destruct available as [| [x y] rest].
    + exact (Hnil [] g reg).
    + change (place_orbs (S n) ((x, y) :: rest) g reg) with
        (grid_write g y x ORB ≫= fun g' =>
         place_orbs n rest g' (reg ∪ {[(x, y)]})).
      change (write_all ORB (take (S n) ((x, y) :: rest)) g) with
        (grid_write g y x ORB ≫= fun g' => write_all ORB (take n rest) g').
      change (drop (S n) ((x, y) :: rest)) with (drop n rest).
      change (list_to_set (take (S n) ((x, y) :: rest)))
        with ({[(x, y)]} ∪ list_to_set (take n rest) : gset Position).
      destruct (grid_write g y x ORB) as [g'| |]; try reflexivity.
      rewrite !bind_Ok, IH, (assoc_L (∪)). reflexivity.
Qed.

(** Distinct readable positions with non-negative coordinates: every write
    succeeds, each position reads the token afterwards, and the other cells
    are as before. *)
Lemma write_all_spec tok (ps : list Position) : forall g,
  NoDup ps ->
  (forall p, p ∈ ps ->
     0 <= p.1 /\ 0 <= p.2 /\ exists c, grid_read g p.2 p.1 = Ok c) ->
  exists g',
    write_all tok ps g = Ok g' /\
    (forall p, p ∈ ps -> grid_read g' p.2 p.1 = Ok tok) /\
    (forall x y, 0 <= x -> 0 <= y -> (x, y) ∉ ps ->
                 grid_read g' y x = grid_read g y x).
Proof.
  induction ps as [| [x y] ps IH]; intros g Hnd Hread.
  - exists g. repeat split; auto. intros p Hp. inversion Hp.
  - apply NoDup_cons in Hnd as [Hfresh Hnd].
    destruct (Hread (x, y)) as (Hx & Hy & c & Hc); [left |].
    simpl in Hx, Hy, Hc.
    destruct (grid_write_after_read g y x c tok Hc) as (g1 & Hw & Hr & _ & Hframe).
    destruct (IH g1 Hnd) as (g' & Hall & Hin & Hout).
    { intros [qx qy] Hq.
      destruct (Hread (qx, qy)) as (Hqx & Hqy & cq & Hcq); [right; exact Hq |].
      simpl in *. repeat split; auto.
      exists cq. rewrite Hframe; auto.
      intros [= -> ->]. auto. }
    exists g'. split; [| split].
    + cbn [write_all]. rewrite Hw, bind_Ok. exact Hall.
    + intros p Hp. apply elem_of_cons in Hp as [-> | Hp]; [| auto].
      simpl. rewrite Hout; auto.
    + intros qx qy Hqx Hqy Hq.
      rewrite Hout; auto.
      * apply Hframe; auto. intros [= -> ->]. apply Hq. left.
      * intros Hq'. apply Hq. right. exact Hq'.
Qed.

Lemma elem_of_py_range lo hi k : k ∈ py_range lo hi <-> lo <= k < hi.
Proof.
  unfold py_range. rewrite list_elem_of_fmap. split.
  - intros (n & -> & Hn). apply elem_of_seq in Hn. lia.
  - intros Hk. exists (Z.to_nat (k - lo)). split; [lia |].
    apply elem_of_seq. lia.
Qed.

Lemma NoDup_py_range lo hi : NoDup (py_range lo hi).
Proof.
  unfold py_range. apply NoDup_fmap_2_strong; [| apply NoDup_seq].
  intros a b _ _ Heq. lia.
Qed.

Lemma elem_of_available_positions pg p :
  p ∈ available_positions pg <->
  (p ∉ agent_start_positions pg) /\
  0 <= p.1 < xAxis pg /\ 0 <= p.2 < yAxis pg.
Proof.
  unfold available_positions. rewrite list_elem_of_filter, list_elem_of_bind.
  split.
  - intros (Hfree & i & Hp & Hi). split; [exact Hfree |].
    apply list_elem_of_fmap in Hp as (j & -> & Hj).
    apply elem_of_py_range in Hi. apply elem_of_py_range in Hj. simpl. lia.
  - intros (Hfree & Hx & Hy). split; [exact Hfree |].
    exists p.1. split; [| apply elem_of_py_range; lia].
    apply list_elem_of_fmap. exists p.2.
    split; [destruct p; reflexivity | apply elem_of_py_range; lia].
Qed.

Lemma NoDup_available_positions pg : NoDup (available_positions pg).
Proof.
  unfold available_positions. apply NoDup_filter, NoDup_bind.
  - intros i1 i2 p _ _ H1 H2.
    apply list_elem_of_fmap in H1 as (j1 & -> & _).
    apply list_elem_of_fmap in H2 as (j2 & Heq & _). congruence.
  - intros i _. apply NoDup_fmap_2_strong; [| apply NoDup_py_range].
    intros a b _ _ Heq. congruence.
  - apply NoDup_py_range.
Qed.

(** [place_holes_and_orbs] on a rectangular grid never raises. With
    [available] the shuffled list of in-bounds positions that are no start
    position, the holes go to its first [num_holes] entries and the orbs to
    the next [num_orbs] ones (fewer when the list runs out): those cells
    read Hole and Orb, the orb positions and no others join the registry,
    every other cell is as before, and the positions used are distinct, in
    bounds and never a start position. *)
Theorem place_holes_and_orbs_places (pg : Playground) :
  rectangular pg ->
  let available := shuffle (available_positions pg) in
  let holes := take (Z.to_nat (num_holes pg)) available in
  let orbs := take (Z.to_nat (num_orbs pg))
                (drop (Z.to_nat (num_holes pg)) available) in
  exists pg',
    place_holes_and_orbs pg = Ok pg' /\
    (forall p, p ∈ holes -> get_cell_state pg' p = Ok HOLE) /\
    (forall p, p ∈ orbs -> get_cell_state pg' p = Ok ORB) /\
    orb_registry pg' = orb_registry pg ∪ list_to_set orbs /\
    (forall p, 0 <= p.1 -> 0 <= p.2 -> p ∉ holes -> p ∉ orbs ->
               get_cell_state pg' p = get_cell_state pg p) /\
    NoDup (holes ++ orbs) /\
    (forall p, p ∈ holes ++ orbs ->
       (p ∉ agent_start_positions pg) /\
       0 <= p.1 < xAxis pg /\ 0 <= p.2 < yAxis pg) /\
    length holes = Nat.min (Z.to_nat (num_holes pg)) (length available) /\
    length orbs = Nat.min (Z.to_nat (num_orbs pg))
                    (length available - Z.to_nat (num_holes pg)).
Proof.
  intros Hrect available holes orbs.
  set (rest := drop (Z.to_nat (num_holes pg)) available) in *.
  assert (Hperm : available ≡ₚ available_positions pg) by apply shuffle_permutes.
  assert (Hnd : NoDup available).
  { rewrite Hperm. apply NoDup_available_positions. }
  assert (Hsplit : holes ++ rest = available) by apply take_drop.
  assert (Hnd' : NoDup (holes ++ rest)) by (rewrite Hsplit; exact Hnd).
  apply NoDup_app in Hnd' as (Hndh & Hdisj & Hndr).
  assert (Horbs_rest : forall p, p ∈ orbs -> p ∈ rest).
  { intros p Hp. eapply elem_of_sublist; [exact Hp | apply sublist_take]. }
  assert (Hndo : NoDup orbs).
  { eapply sublist_NoDup; [exact Hndr | apply sublist_take]. }
  assert (Havail : forall p, p ∈ available ->
            (p ∉ agent_start_positions pg) /\
            0 <= p.1 < xAxis pg /\ 0 <= p.2 < yAxis pg).
  { intros p Hp. apply elem_of_available_positions. rewrite <- Hperm. exact Hp. }
  assert (Hholes_av : forall p, p ∈ holes -> p ∈ available).
  { intros p Hp. rewrite <- Hsplit. apply elem_of_app. left. exact Hp. }
  assert (Hrest_av : forall p, p ∈ rest -> p ∈ available).
  { intros p Hp. rewrite <- Hsplit. apply elem_of_app. right. exact Hp. }
  assert (Hreadable : forall p, p ∈ available ->
            0 <= p.1 /\ 0 <= p.2 /\ exists c, grid_read (grid pg) p.2 p.1 = Ok c).
  { intros [x y] Hp. destruct (Havail _ Hp) as (_ & Hx & Hy). simpl in *.
    destruct (get_cell_state_in_bounds pg x y Hrect Hx Hy) as (row & c & _ & _ & Hc).
    repeat split; try lia. exists c. exact Hc. }
  destruct (write_all_spec HOLE holes (grid pg) Hndh) as (g1 & Hw1 & Hin1 & Hout1).
  { intros p Hp. apply Hreadable, Hholes_av, Hp. }
  destruct (write_all_spec ORB orbs g1 Hndo) as (g2 & Hw2 & Hin2 & Hout2).
  { intros [x y] Hp. pose proof (Horbs_rest _ Hp) as Hr.
    destruct (Hreadable _ (Hrest_av _ Hr)) as (Hx & Hy & c & Hc). simpl in *.
    repeat split; auto. exists c. rewrite Hout1; auto.
    intros Hh. exact (Hdisj _ Hh Hr). }
  exists (set_orb_registry (orb_registry pg ∪ list_to_set orbs) (set_grid g2 pg)).
  split; [| split; [| split; [| split; [| split; [| split; [| split]]]]]].
  - unfold place_holes_and_orbs. fold available.
    rewrite place_holes_writes. fold holes rest. rewrite Hw1, !bind_Ok.
    rewrite place_orbs_writes. fold orbs. rewrite Hw2, !bind_Ok. reflexivity.
  - intros [x y] Hp. simpl. rewrite Hout2.
    + apply (Hin1 (x, y) Hp).
    + destruct (Hreadable _ (Hholes_av _ Hp)) as (Hx & _). exact Hx.
    + destruct (Hreadable _ (Hholes_av _ Hp)) as (_ & Hy & _). exact Hy.
    + intros Ho. exact (Hdisj _ Hp (Horbs_rest _ Ho)).
  - intros [x y] Hp. simpl. apply (Hin2 (x, y) Hp).
  - reflexivity.
  - intros [x y] Hx Hy Hnh Hno. simpl in *. rewrite Hout2, Hout1; auto.
  - apply NoDup_app. repeat split; auto.
    intros p Hp Ho. exact (Hdisj _ Hp (Horbs_rest _ Ho)).
  - intros p Hp. apply Havail. apply elem_of_app in Hp as [Hp | Hp]; auto.
  - split; [unfold holes; apply length_take |].
    unfold orbs. rewrite length_take. unfold rest. rewrite length_drop. reflexivity.
Qed.

End Placement.

Lemma place_holes_and_orbs_places_witness :
  let pg := mkPlayground 2 2 [["empty"; "empty"]; ["empty"; "empty"]]
              {[(0, 0)]} 1 1 ∅ 3 in
  exists pg',
    place_holes_and_orbs (consts := sample_consts) (shuffling := sample_shuffle) pg
    = Ok pg' /\
    get_cell_state pg' (0, 1) = Ok "hole" /\
    get_cell_state pg' (1, 0) = Ok "orb".
Proof.
  intros pg.
  assert (Hrect : rectangular pg).
  { split; [reflexivity | repeat constructor]. }
  destruct (place_holes_and_orbs_places (consts := sample_consts)
              (shuffling := sample_shuffle) pg Hrect)
    as (pg' & Hplace & Hholes & Horbs & _).
  exists pg'. split; [exact Hplace |]. split.
  - apply Hholes. vm_compute. left.
  - apply Horbs. vm_compute. left.
Defined.

(** ** What an agent sees and learns in its turn *)

Section Sight.
Context {consts : Consts}.

Lemma get_surrounding_cells_rows pg x y f :
  rectangular pg ->
  get_surrounding_cells pg (x, y) (Some f) =
  Ok (map (fun i => map (fun j => window_entry pg i j)
                      (py_range (x - f / 2) (x + f / 2 + 1)))
        (py_range (y - f / 2) (y + f / 2 + 1))).
Proof.
  intros Hrect. unfold get_surrounding_cells. cbn [default].
  apply for_each_total. intros i _.
  apply for_each_total. intros j _.
  apply surrounding_cell_rectangular, Hrect.
Qed.

(** Perception end to end, as [perceive_agent] followed by
    [update_item_positions] runs it: after the view around the agent has
    been fetched from a rectangular grid, handed over with [see] and
    scanned, every in-bounds cell within [fov // 2] columns and rows of the
    agent that holds an Orb, Hole or FilledHole token is known to the agent
    under its own position. *)
Theorem perception_learns_visible (pg : Playground) (a : Agent)
    (qx qy : Z) (c : string) :
  rectangular pg ->
  (position a).1 - field_of_view a / 2 <= qx <= (position a).1 + field_of_view a / 2 ->
  (position a).2 - field_of_view a / 2 <= qy <= (position a).2 + field_of_view a / 2 ->
  0 <= qx < xAxis pg -> 0 <= qy < yAxis pg ->
  get_cell_state pg (qx, qy) = Ok c ->
  exists cells,
    get_surrounding_cells pg (position a) (Some (field_of_view a)) = Ok cells /\
    let a' := update_item_positions (see a cells) in
    (contains ORB c = true -> (qx, qy) ∈ orb_positions a') /\
    (contains HOLE c = true -> (qx, qy) ∈ hole_positions a') /\
    (contains FILLED_HOLE c = true -> (qx, qy) ∈ filled_hole_positions a').
Proof.
  intros Hrect Hqx Hqy Hbx Hby Hc.
  destruct (position a) as [x y] eqn:Hpos. cbn [fst snd] in Hqx, Hqy.
  set (f := field_of_view a) in *.
  eexists. split; [apply get_surrounding_cells_rows, Hrect |].
  set (xs := py_range (x - f / 2) (x + f / 2 + 1)).
  set (ys := py_range (y - f / 2) (y + f / 2 + 1)).
  set (cells := map (fun i => map (fun j => window_entry pg i j) xs) ys).
  set (i := Z.to_nat (qy - (y - f / 2))).
  set (j := Z.to_nat (qx - (x - f / 2))).
  assert (Hrow : cells !! i = Some (map (fun j => window_entry pg qy j) xs)).
  { unfold cells. rewrite list_lookup_fmap. unfold ys.
    rewrite py_range_lookup by (unfold i; lia). simpl.
    do 3 f_equal. unfold i. lia. }
  assert (Hcell : map (fun j => window_entry pg qy j) xs !! j = Some c).
  { rewrite list_lookup_fmap. unfold xs.
    rewrite py_range_lookup by (unfold j; lia). simpl. f_equal.
    replace (x - f / 2 + Z.of_nat j) with qx by (unfold j; lia).
    destruct (surrounding_cell_rectangular pg qy qx Hrect) as (_ & Hentry).
    destruct (Z.leb_spec 0 qx); [| lia]. destruct (Z.ltb_spec qx (xAxis pg)); [| lia].
    destruct (Z.leb_spec 0 qy); [| lia]. destruct (Z.ltb_spec qy (yAxis pg)); [| lia].
    cbn [andb] in Hentry. rewrite Hc in Hentry. injection Hentry as <-. reflexivity. }
  destruct (update_item_positions_grows_at (see a cells) i j _ c Hrow Hcell)
    as (Ho & Hh & Hf).
  cbn [see set_visibility position field_of_view] in Ho, Hh, Hf.
  rewrite Hpos in Ho, Hh, Hf. cbn [fst snd] in Ho, Hh, Hf. fold f in Ho, Hh, Hf.
  replace (x - f / 2 + Z.of_nat j) with qx in Ho, Hh, Hf by (unfold j; lia).
  replace (y - f / 2 + Z.of_nat i) with qy in Ho, Hh, Hf by (unfold i; lia).
  auto.
Qed.

End Sight.

Lemma perception_learns_visible_witness :
  let pg := mkPlayground 2 2 [["empty"; "orb"]; ["empty"; "hole"]] ∅ 1 1 {[(1, 0)]} 3 in
  let a := mkAgent "a1" (0, 0) 3 [] {[(0, 0)]} UP 5 false [] [] None false ∅ in
  exists cells,
    get_surrounding_cells pg (0, 0) (Some 3) = Ok cells /\
    (1, 0) ∈ orb_positions (update_item_positions (consts := sample_consts)
                              (see a cells)).
Proof.
  intros pg a.
  assert (Hrect : rectangular pg).
  { split; [reflexivity | repeat constructor]. }
  destruct (perception_learns_visible (consts := sample_consts) pg a 1 0 "orb" Hrect
              ltac:(vm_compute; split; discriminate)
              ltac:(vm_compute; split; discriminate)
              ltac:(vm_compute; split; [discriminate | reflexivity])
              ltac:(vm_compute; split; [discriminate | reflexivity])
              eq_refl) as (cells & Hcells & Horb & _).
  exists cells. split; [exact Hcells | exact (Horb eq_refl)].
Defined.

(** ** Redistribution that leaves everything in place *)

Section Idle.
Context {consts : Consts} {rng : Random}.

Lemma for_loop_idle (l : list Position) :
  (forall k, Qle_bool (rand_random k) float_0_1 = false) ->
  forall pg t, for_loop switch_orb_step (pg, t) l = Ok (pg, (t + 2 * length l)%nat).
Proof.
  intros Hidle. induction l as [| orb l IH]; intros pg t.
  - simpl. do 2 f_equal. lia.
  - change (for_loop switch_orb_step (pg, t) (orb :: l)) with
      (switch_orb_step (pg, t) orb ≫= fun st' => for_loop switch_orb_step st' l).
    assert (Hstep : switch_orb_step (pg, t) orb = Ok (pg, S (S t))).
    { unfold switch_orb_step. rewrite Hidle. reflexivity. }
    rewrite Hstep, bind_Ok, IH. do 2 f_equal. simpl. lia.
Qed.

(** [switch_orb_positions] with an empty registry returns the playground
    as it is and makes no draw. With a registry of [n] positions and every
    [random.random()] above 0.1, it returns the playground as it is after
    [2 * n] draws. *)
Theorem switch_orb_positions_idle (pg : Playground) (t : nat) :
  (orb_registry pg = ∅ -> switch_orb_positions pg t = Ok (pg, t)) /\
  ((forall k, Qle_bool (rand_random k) float_0_1 = false) ->
   switch_orb_positions pg t = Ok (pg, (t + 2 * size (orb_registry pg))%nat)).
Proof.
  unfold switch_orb_positions. split.
  - intros Hempty.
    assert (Hnil : set_iter (orb_registry pg) = []).
    { apply Permutation_nil_r. rewrite (set_iter_enumerates (orb_registry pg)).
      rewrite Hempty, elements_empty. reflexivity. }
    rewrite Hnil. reflexivity.
  - intros Hidle. rewrite for_loop_idle by exact Hidle.
    assert (Hlen : length (set_iter (orb_registry pg)) = size (orb_registry pg)).
    { unfold size, set_size. cbn [compose].
      apply Permutation_length, set_iter_enumerates. }
    rewrite Hlen. reflexivity.
Qed.

End Idle.

Lemma switch_orb_positions_idle_witness :
  let pg := mkPlayground 2 2 [["orb"; "empty"]; ["empty"; "hole"]] ∅ 1 1 {[(0, 0)]} 3 in
  switch_orb_positions (consts := sample_consts) (rng := sample_random) pg 0
  = Ok (pg, 2%nat).
Proof.
  intros pg.
  apply (proj2 (switch_orb_positions_idle (consts := sample_consts)
                  (rng := sample_random) pg 0)).
  intros k. reflexivity.
Defined.

(** ** Leaving a cell one is not on *)

Section Absent.
Context {consts : Consts}.

Lemma exit_string_absent L T ls :
  L <> "" -> contains L (cell_of T ls) = false ->
  token T -> Forall token ls ->
  exit_string L (cell_of T ls) = Ok (cell_of T ls).
Proof.
  intros HL Habs HT Hls. unfold exit_string.
  assert (Hall : Forall token (T :: ls)) by (constructor; auto).
  assert (Hr1 : replace L "" (cell_of T ls) = cell_of T ls).
  { unfold replace. destruct L; [congruence |].
    apply replace_from_absent, Habs. }
  assert (Hr2 : replace ",," "," (cell_of T ls) = cell_of T ls).
  { unfold replace, cell_of.
    rewrite <- (append_nil_r (join (T :: ls))) at 1.
    rewrite replace_commas_join by (auto; discriminate).
    apply append_nil_r. }
  rewrite Hr1, Hr2.
  assert (Hnil : String.eqb (cell_of T ls) "" = false).
  { apply String.eqb_neq, join_nonempty; [exact Hall | discriminate]. }
  rewrite Hnil.
  destruct (last_char_join _ Hall ltac:(discriminate)) as (c & Hc & Hcomma).
  unfold cell_of. rewrite Hc, bind_Ok.
  apply Ascii.eqb_neq in Hcomma. rewrite Hcomma. reflexivity.
Qed.

(** [agent_exit_cell] for an agent whose label occurs nowhere in the cell
    at its position - as for an agent still at its start position, whose
    label [add_agent] wrote to another cell -: the call succeeds and the
    cell [T,l1,..,ln] is as before. *)
Theorem agent_exit_cell_absent (pg : Playground) (agent : Agent)
    (T : string) (ls : list string) :
  get_cell_state pg (position agent) = Ok (cell_of T ls) ->
  contains (get_label agent) (cell_of T ls) = false ->
  token T -> Forall token ls ->
  exists pg',
    agent_exit_cell pg agent = Ok pg' /\
    get_cell_state pg' (position agent) = Ok (cell_of T ls) /\
    orb_registry pg' = orb_registry pg.
Proof.
  intros Hc Habs HT Hls.
  assert (HL : get_label agent <> "").
  { unfold get_label. destruct AGENT; discriminate. }
  destruct (agent_exit_cell_result pg agent _ (cell_of T ls) Hc) as (pg' & Hexit & Hread).
  { apply exit_string_absent; auto. }
  exists pg'. repeat split; auto.
  apply agent_exit_cell_frame in Hexit as [g ->]. reflexivity.
Qed.

End Absent.

Lemma agent_exit_cell_absent_witness :
  let pg := mkPlayground 2 2 [["empty"; "hole,agent-b"]; ["agent-a1"; "empty"]]
              {[(1, 0)]} 1 0 ∅ 3 in
  let agent := mkAgent "a1" (1, 0) 3 [] {[(1, 0)]} UP 30 false [] [] None false ∅ in
  exists pg',
    agent_exit_cell (consts := sample_consts) pg agent = Ok pg' /\
    get_cell_state pg' (1, 0) = Ok "hole,agent-b".
Proof.
  intros pg agent.
  destruct (agent_exit_cell_absent (consts := sample_consts) pg agent
              "hole" ["agent-b"] eq_refl eq_refl)
    as (pg' & Hexit & Hread & _).
  - split; [discriminate | reflexivity].
  - constructor; [split; [discriminate | reflexivity] | constructor].
  - exists pg'. split; [exact Hexit | exact Hread].
Defined.
